(** * mem-box: terminal command capture (client/vscode/src/capture.ts)

    A shallow embedding of [capture.ts] and a verification of its
    specification.  The file has three parts:

    - [JS]: the ECMAScript string primitives the code calls
      ([String.prototype.trim], [String.prototype.split] with a string and
      with a regular expression), written after the algorithms of the
      language specification;
    - the pure functions [splitCommands] and [processTerminalExecution];
    - [Loop]: promises, the microtask queue and timers, on which
      [OperationQueue], [captureCommands] and [queueCapture] run. *)

From Stdlib Require Import ZArith NArith Ascii String List Lia Bool.
From stdpp Require Import base option list gmap.
Import ListNotations.

Local Open Scope nat_scope.
Local Open Scope bool_scope.

(** ** ECMAScript strings *)

Module JS.

(** A string is a sequence of UTF-16 code units. *)
Abbreviation code_unit := N (only parsing).
Abbreviation jsstring := (list N) (only parsing).

(** A literal of the source text (ASCII only). *)
Definition lit (s : string) : jsstring :=
  map N_of_ascii (list_ascii_of_string s).

Definition LF : N := 10%N.

(** [WhiteSpace] and [LineTerminator] of the language specification: the
    code units removed by [trim]. *)
Definition is_white_space (c : N) : bool :=
  (c =? 0x9)%N || (c =? 0xA)%N || (c =? 0xB)%N || (c =? 0xC)%N
  || (c =? 0xD)%N || (c =? 0x20)%N || (c =? 0xA0)%N || (c =? 0x1680)%N
  || ((0x2000 <=? c)%N && (c <=? 0x200A)%N)
  || (c =? 0x2028)%N || (c =? 0x2029)%N || (c =? 0x202F)%N
  || (c =? 0x205F)%N || (c =? 0x3000)%N || (c =? 0xFEFF)%N.

Fixpoint trim_start (s : jsstring) : jsstring :=
  match s with
  | [] => []
  | c :: r => if is_white_space c then trim_start r else s
  end.

Definition trim_end (s : jsstring) : jsstring :=
  rev (trim_start (rev s)).

(** [String.prototype.trim]. *)
Definition trim (s : jsstring) : jsstring := trim_end (trim_start s).

(** [substring S from to], for [from <= to <= length S]. *)
Definition substring (S : jsstring) (from to : nat) : jsstring :=
  take (to - from) (drop from S).

Fixpoint starts_with (R S : jsstring) : bool :=
  match R, S with
  | [], _ => true
  | _ :: _, [] => false
  | a :: R', b :: S' => (a =? b)%N && starts_with R' S'
  end.

(** [StringIndexOf]: the first index at or after [i] where [R] occurs. *)
Fixpoint index_from (R rest : jsstring) (i : nat) : option nat :=
  if starts_with R rest then Some i
  else match rest with
       | [] => None
       | _ :: rest' => index_from R rest' (S i)
       end.

Definition StringIndexOf (S R : jsstring) (fromIndex : nat) : option nat :=
  if fromIndex <=? length S then index_from R (drop fromIndex S) fromIndex
  else None.

(** [String.prototype.split] with a non-empty string separator [R] and no
    limit: the loop over the occurrences [j] of [R], [i] being the end of
    the previous one.  Every turn moves [i] forward, so [length S] turns
    are enough. *)
Fixpoint split_loop (fuel : nat) (S R : jsstring) (i : nat)
    (j : option nat) (substrings : list jsstring) : list jsstring :=
  match j with
  | None => substrings ++ [substring S i (length S)]
  | Some j =>
      match fuel with
      | 0 => substrings
      | S fuel =>
          let T := substring S i j in
          let i := j + length R in
          split_loop fuel S R i (StringIndexOf S R i) (substrings ++ [T])
      end
  end.

Definition String_split (S R : jsstring) : list jsstring :=
  if length S =? 0 then [S]
  else split_loop (length S) S R 0 (StringIndexOf S R 0) [].

(** The regular expressions of the source: literals and ordered
    alternatives. *)
Inductive regex :=
| Lit (s : jsstring)
| Alt (r1 r2 : regex).

(** A match of [r] in [S] that starts exactly at [q] (the sticky match of
    the splitter): the index just after the match. *)
Fixpoint match_at (r : regex) (S : jsstring) (q : nat) : option nat :=
  match r with
  | Lit s => if starts_with s (drop q S) then Some (q + length s) else None
  | Alt r1 r2 =>
      match match_at r1 S q with
      | Some e => Some e
      | None => match_at r2 S q
      end
  end.

(** [RegExp.prototype[Symbol.split]] without limit, for a splitter with
    no capture groups: [p] is the end of the last separator, [q] the
    index tried next. *)
Fixpoint regexp_split_loop (fuel : nat) (r : regex) (S : jsstring)
    (p q : nat) (A : list jsstring) : list jsstring :=
  match fuel with
  | 0 => A
  | S fuel =>
      if q <? length S then
        match match_at r S q with
        | None => regexp_split_loop fuel r S p (q + 1) A
        | Some e =>
            let e := Nat.min e (length S) in
            if e =? p then regexp_split_loop fuel r S p (q + 1) A
            else regexp_split_loop fuel r S e e (A ++ [substring S p q])
        end
      else A ++ [substring S p (length S)]
  end.

Definition RegExp_split (r : regex) (S : jsstring) : list jsstring :=
  if length S =? 0 then
    match match_at r S 0 with
    | Some _ => []
    | None => [S]
    end
  else regexp_split_loop (length S + 1) r S 0 0 [].

End JS.

Import JS.

(** ** The command splitter *)

(** The pattern [/\|\||&&|;/]. *)
Definition separator : regex :=
  Alt (Lit (lit "||")) (Alt (Lit (lit "&&")) (Lit (lit ";"))).

(** [splitCommands]: both [forEach] loops push onto the one array
    [commands], which is threaded through as the accumulator. *)
Definition splitCommands (commandLine : jsstring) : list jsstring :=
  fold_left
    (fun commands line =>
       let parts := RegExp_split separator line in
       fold_left
         (fun commands cmd =>
            let trimmed := trim cmd in
            if 0 <? length trimmed then commands ++ [trimmed] else commands)
         parts commands)
    (String_split commandLine [LF]) [].

(** ** The execution processor *)

(** The options record [{ context?: string; status: string }] and the
    capture request built from one terminal event. *)
Record capture_options := {
  context : option jsstring;
  status : jsstring
}.

Record capture_request := {
  commands : list jsstring;
  options : capture_options
}.

(** [!commandLine]: a string is falsy exactly when it is empty. *)
Definition falsy (s : jsstring) : bool :=
  match s with
  | [] => true
  | _ :: _ => false
  end.

(** [exitCode !== 0], for an exit code that is an integer or [undefined]. *)
Definition strict_ne_zero (exitCode : option Z) : bool :=
  match exitCode with
  | Some n => negb (n =? 0)%Z
  | None => true
  end.

Definition processTerminalExecution (commandLine : jsstring)
    (exitCode : option Z) (workspaceContext : option jsstring)
    (captureSuccessOnly : bool) : option capture_request :=
  if falsy commandLine || (length (trim commandLine) =? 0) then None
  else if captureSuccessOnly && strict_ne_zero exitCode then None
  else
    let status :=
      if negb (strict_ne_zero exitCode) then lit "success" else lit "failed" in
    let commands := splitCommands commandLine in
    Some {| commands := commands;
            options := {| context := workspaceContext; status := status |} |}.

(** ** The splitter as the specification words it

    Section 4.1: split the input on newlines into lines, split each line on
    every occurrence of an operator, trim each fragment, drop the empty
    ones, concatenate in order. *)

Module Reference.

Definition operators : list jsstring := [lit "||"; lit "&&"; lit ";"].

(** The lines of [rest], [cur] being the part of the current line already
    read. *)
Fixpoint lines_go (cur rest : jsstring) : list jsstring :=
  match rest with
  | [] => [cur]
  | c :: rest' =>
      if (c =? LF)%N then cur :: lines_go [] rest'
      else lines_go (cur ++ [c]) rest'
  end.

Definition lines (s : jsstring) : list jsstring := lines_go [] s.

(** The fragments of [rest] between operators, read left to right: where
    an operator starts the current fragment [cur] ends and the operator's
    [skip] remaining code units are passed over. *)
Fixpoint fragments_go (skip : nat) (cur rest : jsstring) : list jsstring :=
  match rest with
  | [] => [cur]
  | c :: rest' =>
      match skip with
      | S k => fragments_go k cur rest'
      | 0 =>
          match List.find (fun op => starts_with op rest) operators with
          | Some op => cur :: fragments_go (length op - 1) [] rest'
          | None => fragments_go 0 (cur ++ [c]) rest'
          end
      end
  end.

Definition fragments (line : jsstring) : list jsstring :=
  fragments_go 0 [] line.

Definition nonempty (s : jsstring) : bool := negb (length s =? 0).

Definition splitCommands_spec (s : jsstring) : list jsstring :=
  List.filter nonempty (map trim (flat_map fragments (lines s))).

End Reference.

(** An input made of operators and white space only: a concatenation of
    white-space code units and of the operators [||], [&&] and [;]. *)
Inductive SeparatorsOnly : jsstring -> Prop :=
| so_nil : SeparatorsOnly []
| so_space c s :
    is_white_space c = true -> SeparatorsOnly s -> SeparatorsOnly (c :: s)
| so_operator op s :
    In op Reference.operators -> SeparatorsOnly s -> SeparatorsOnly (op ++ s).

(** The same, decided from left to right. *)
Fixpoint separators_only (s : jsstring) : bool :=
  match s with
  | [] => true
  | c :: r =>
      if is_white_space c then separators_only r
      else if (c =? 59)%N then separators_only r
      else
        match r with
        | d :: r' =>
            (((c =? 124)%N && (d =? 124)%N) || ((c =? 38)%N && (d =? 38)%N))
            && separators_only r'
        | [] => false
        end
  end.

Definition all_white_space (s : jsstring) : bool := forallb is_white_space s.

(** The entries [es] laid out with the gaps [gaps]: a gap before each
    entry and one after the last. *)
Fixpoint weave (gaps es : list jsstring) : jsstring :=
  match gaps, es with
  | g :: gaps, e :: es => g ++ e ++ weave gaps es
  | g :: _, [] => g
  | [], _ => []
  end.

(** The status label as section 4.2 of the specification derives it:
    [success] for the exit code [0], [failed] for any other exit code and
    for an absent one. *)
Definition derived_status (exitCode : option Z) : jsstring :=
  match exitCode with
  | Some 0%Z => lit "success"
  | _ => lit "failed"
  end.

(** ** Promises, microtasks and timers

    The part of the run-time system that [capture.ts] relies on, after the
    language specification: promise reactions ([PerformPromiseThen],
    [NewPromiseReactionJob]), adoption of a returned promise
    ([NewPromiseResolveThenableJob]), [Promise.allSettled], [await], the
    FIFO microtask queue, and timers.  Promise values are not modelled: the
    code never looks at one. *)

Module Loop.

Abbreviation pid := nat (only parsing).

Inductive settled := Fulfilled | Rejected.

(** What an observer of a run sees, in order of occurrence. *)
Inductive event :=
| Effect (n : nat)
    (* a side effect of external code, as [executionOrder.push(n)] *)
| Submit (cmd description : jsstring) (opts : capture_options)
    (* a call [client.addCommand(cmd, description, opts)] *)
| OpStart
    (* the queue invokes an enqueued operation *)
| OpEnd (s : settled).
    (* that operation has thrown, or the promise it returned has settled *)

(** External asynchronous code (an operation of a caller, the client's
    [addCommand]): side effects and waits for a timer or for I/O, then
    [return] or [throw]. *)
Inductive body :=
| BReturn
| BThrow
| BEffect (n : nat) (k : body)
| BWait (ms : nat) (k : body).

(** Bodies of [async] functions. *)
#[warnings="-register-all"]
Inductive prog :=
| Return
| Throw
| Emit (e : event) (k : prog)
| Sleep (ms : nat) (k : prog)
    (* [await new Promise(resolve => setTimeout(resolve, ms))] *)
| AwaitCall (f : prog) (k : prog)
    (* [await f()], [f] an [async] function with body [f] *)
| AwaitAllSettled (fs : list prog) (k : prog).
    (* [await Promise.allSettled([f1(), ..., fn()])] *)

Fixpoint external (b : body) : prog :=
  match b with
  | BReturn => Return
  | BThrow => Throw
  | BEffect n k => Emit (Effect n) (external k)
  | BWait ms k => Sleep ms (external k)
  end.

(** An operation handed to the queue, of type [() => Promise<void>]: an
    [async] function, or a plain function that throws before it returns a
    promise. *)
Inductive operation :=
| AsyncFn (b : prog)
| Thrower (effects : list nat).

(** An activation of an [async] function: its result promise, and whether
    it is an enqueued operation (whose end is then observed). *)
Record frame := Frame {
  self : pid;
  observed : bool
}.

(** The closures that end up as promise handlers. *)
Inductive handler :=
| HOperation (op : operation)   (* [operation], passed to [then] *)
| HIgnore                       (* [() => {}], passed to [catch] *)
| HResume (k : prog) (fr : frame)
                                (* the rest of an [async] body after [await] *)
| HThrowInto (fr : frame)       (* [await] of a rejected promise: it throws *)
| HResolve (p : pid)            (* the resolving functions of [p] *)
| HReject (p : pid)
| HElement (agg : pid).         (* an element function of [allSettled] *)

Record reaction := Reaction {
  on_fulfilled : option handler;
  on_rejected : option handler;
  derived : option pid
}.

Inductive cell :=
| Pending (reactions : list reaction)
| Settled (s : settled).

Inductive job :=
| ReactionJob (h : option handler) (s : settled) (target : option pid)
| ThenableJob (p thenable : pid).

Record state := State {
  heap : list cell;            (* the promises, by identifier *)
  remaining : gmap nat nat;    (* [remainingElementsCount] of [allSettled] *)
  micro : list job;            (* the microtask queue *)
  timers : list (nat * nat);   (* pending timers: due time, promise *)
  now : nat;
  trace : list event
}.

Definition initial : state := State [] ∅ [] [] 0 [].

(** The host's choice of the timer that fires next. *)
Class TimerPolicy := {
  pick : list (nat * nat) -> option ((nat * nat) * list (nat * nat));
  pick_nil : pick [] = None;
  pick_cons : forall t ts, exists x rest,
      pick (t :: ts) = Some (x, rest) /\ Permutation (t :: ts) (x :: rest)
}.

(** Timers fire by due time, and in the order of their creation when due
    together. *)
Fixpoint earliest (ts : list (nat * nat))
    : option ((nat * nat) * list (nat * nat)) :=
  match ts with
  | [] => None
  | t :: ts' =>
      match earliest ts' with
      | Some (x, rest) =>
          if fst x <? fst t then Some (x, t :: rest) else Some (t, ts')
      | None => Some (t, [])
      end
  end.

Definition log (e : event) (st : state) : state :=
  State (heap st) (remaining st) (micro st) (timers st) (now st)
        (trace st ++ [e]).

Definition push_job (j : job) (st : state) : state :=
  State (heap st) (remaining st) (micro st ++ [j]) (timers st) (now st)
        (trace st).

Definition push_jobs (js : list job) (st : state) : state :=
  State (heap st) (remaining st) (micro st ++ js) (timers st) (now st)
        (trace st).

Definition store (p : pid) (c : cell) (st : state) : state :=
  State (<[p := c]> (heap st)) (remaining st) (micro st) (timers st) (now st)
        (trace st).

Definition set_remaining (agg : pid) (n : nat) (st : state) : state :=
  State (heap st) (<[agg := n]> (remaining st)) (micro st) (timers st)
        (now st) (trace st).

Definition add_timer (due : nat) (p : pid) (st : state) : state :=
  State (heap st) (remaining st) (micro st) (timers st ++ [(due, p)]) (now st)
        (trace st).

(** A new promise. *)
Definition alloc (c : cell) (st : state) : pid * state :=
  (length (heap st),
   State (heap st ++ [c]) (remaining st) (micro st) (timers st) (now st)
         (trace st)).

Definition handler_for (s : settled) (r : reaction) : option handler :=
  match s with
  | Fulfilled => on_fulfilled r
  | Rejected => on_rejected r
  end.

(** [FulfillPromise] and [RejectPromise]: the reactions of [p] become
    jobs.  A promise that is settled already stays as it is. *)
Definition settle (p : pid) (s : settled) (st : state) : state :=
  match heap st !! p with
  | Some (Pending rs) =>
      push_jobs (map (fun r => ReactionJob (handler_for s r) s (derived r)) rs)
                (store p (Settled s) st)
  | _ => st
  end.

(** [PerformPromiseThen]. *)
Definition perform_then (p : pid) (r : reaction) (st : state) : state :=
  match heap st !! p with
  | Some (Pending rs) => store p (Pending (rs ++ [r])) st
  | Some (Settled s) => push_job (ReactionJob (handler_for s r) s (derived r)) st
  | None => st
  end.

(** [p.then(onFulfilled, onRejected)]: the derived promise. *)
Definition promise_then (p : pid) (onFulfilled onRejected : option handler)
    (st : state) : pid * state :=
  let (d, st) := alloc (Pending []) st in
  (d, perform_then p (Reaction onFulfilled onRejected (Some d)) st).

(** [await p] in the activation [fr], [k] being the rest of the body. *)
Definition await (p : pid) (k : prog) (fr : frame) (st : state) : state :=
  perform_then p (Reaction (Some (HResume k fr)) (Some (HThrowInto fr)) None) st.

(** The end of an [async] function: its promise settles. *)
Definition finish (fr : frame) (s : settled) (st : state) : state :=
  settle (self fr) s (if observed fr then log (OpEnd s) st else st).

(** [Promise.allSettled] of the promises [ps]. *)
Definition all_settled (ps : list pid) (st : state) : pid * state :=
  let (agg, st) := alloc (Pending []) st in
  let st := set_remaining agg 1 st in
  let st :=
    fold_left
      (fun st p =>
         let st := set_remaining agg (default 0 (remaining st !! agg) + 1) st in
         snd (promise_then p (Some (HElement agg)) (Some (HElement agg)) st))
      ps st in
  let n := default 0 (remaining st !! agg) - 1 in
  let st := set_remaining agg n st in
  (agg, if n =? 0 then settle agg Fulfilled st else st).

(** The calls [f1(), ..., fn()] of [async] functions, in order, and the
    promises they return; [exec] runs a body. *)
Definition invoke_each (exec : prog -> frame -> state -> state) :=
  fix go (fs : list prog) (st : state) : list pid * state :=
    match fs with
    | [] => ([], st)
    | f :: fs' =>
        let (a, st) := alloc (Pending []) st in
        let (ps, st) := go fs' (exec f (Frame a false) st) in
        (a :: ps, st)
    end.

(** An [async] body runs until it ends or reaches an [await]. *)
Fixpoint exec (b : prog) (fr : frame) (st : state) {struct b} : state :=
  match b with
  | Return => finish fr Fulfilled st
  | Throw => finish fr Rejected st
  | Emit e k => exec k fr (log e st)
  | Sleep ms k =>
      let (t, st) := alloc (Pending []) st in
      await t k fr (add_timer (now st + ms) t st)
  | AwaitCall f k =>
      let (a, st) := alloc (Pending []) st in
      await a k fr (exec f (Frame a false) st)
  | AwaitAllSettled fs k =>
      let (ps, st) := invoke_each exec fs st in
      let (agg, st) := all_settled ps st in
      await agg k fr st
  end.

(** A call [f()] of an [async] function from outside any other. *)
Definition invoke (f : prog) (st : state) : pid * state :=
  let (a, st) := alloc (Pending []) st in
  (a, exec f (Frame a false) st).

(** The outcome of calling a handler. *)
Inductive completion :=
| Returned            (* a value that is not a promise *)
| ReturnedPromise (a : pid)
| Threw.

Definition call_handler (h : handler) (st : state) : completion * state :=
  match h with
  | HOperation (AsyncFn b) =>
      let (a, st) := alloc (Pending []) (log OpStart st) in
      (ReturnedPromise a, exec b (Frame a true) st)
  | HOperation (Thrower effects) =>
      (Threw,
       log (OpEnd Rejected)
           (fold_left (fun st n => log (Effect n) st) effects (log OpStart st)))
  | HIgnore => (Returned, st)
  | HResume k fr => (Returned, exec k fr st)
  | HThrowInto fr => (Returned, finish fr Rejected st)
  | HResolve p => (Returned, settle p Fulfilled st)
  | HReject p => (Returned, settle p Rejected st)
  | HElement agg =>
      let n := default 0 (remaining st !! agg) - 1 in
      let st := set_remaining agg n st in
      (Returned, if n =? 0 then settle agg Fulfilled st else st)
  end.

(** Resolution of the derived promise with the outcome of its handler. *)
Definition resolve_with (target : option pid) (c : completion) (st : state)
    : state :=
  match target with
  | None => st
  | Some d =>
      match c with
      | Returned => settle d Fulfilled st
      | ReturnedPromise a => push_job (ThenableJob d a) st
      | Threw => settle d Rejected st
      end
  end.

Definition run_job (j : job) (st : state) : state :=
  match j with
  | ReactionJob None s target =>
      match target with
      | Some d => settle d s st
      | None => st
      end
  | ReactionJob (Some h) s target =>
      let (c, st) := call_handler h st in
      resolve_with target c st
  | ThenableJob p a =>
      snd (promise_then a (Some (HResolve p)) (Some (HReject p)) st)
  end.

(** One turn of the event loop: the oldest microtask if there is one, else
    the timer the host picks; [None] when nothing is left to do. *)
Definition step `{TimerPolicy} (st : state) : option state :=
  match micro st with
  | j :: js =>
      Some (run_job j (State (heap st) (remaining st) js (timers st) (now st)
                             (trace st)))
  | [] =>
      match pick (timers st) with
      | Some ((due, t), rest) =>
          Some (settle t Fulfilled
                  (State (heap st) (remaining st) [] rest
                         (Nat.max (now st) due) (trace st)))
      | None => None
      end
  end.

Fixpoint run `{TimerPolicy} (fuel : nat) (st : state) : state :=
  match fuel with
  | 0 => st
  | S fuel =>
      match step st with
      | Some st' => run fuel st'
      | None => st
      end
  end.

End Loop.

Import Loop.

(** ** The operation queue *)

(** The object's one field, the tail promise. *)
Record OperationQueue := { queue : pid }.

(** [new OperationQueue()]: the field starts as [Promise.resolve()]. *)
Definition new_OperationQueue (st : state) : OperationQueue * state :=
  let (p, st) := alloc (Settled Fulfilled) st in
  ({| queue := p |}, st).

(** [enqueue]:
    [this.queue = this.queue.then(operation).catch(() => {})]. *)
Definition enqueue (this : OperationQueue) (operation : operation)
    (st : state) : OperationQueue * state :=
  let (p, st) := promise_then (queue this) (Some (HOperation operation)) None st in
  let (c, st) := promise_then p None (Some HIgnore) st in
  ({| queue := c |}, st).

(** ** Capture *)

(** The external client.  The module [./client] that [capture.ts] imports
    is a collaborator whose code lies outside this layer, so a client is a
    parameter here.  What a call of [addCommand] does is its own affair;
    this layer sees that the call is made, and that the promise it returns
    settles (fulfilled or rejected) at once or after some waits for I/O. *)
Inductive response :=
| Settles (s : settled)
| Waits (ms : nat) (r : response).

Fixpoint body_of (r : response) : body :=
  match r with
  | Settles Fulfilled => BReturn
  | Settles Rejected => BThrow
  | Waits ms r => BWait ms (body_of r)
  end.

Definition MemoryBoxClient : Type :=
  jsstring -> jsstring -> capture_options -> response.

(** [client.addCommand(cmd, description, options)]. *)
Definition addCommand (client : MemoryBoxClient) (cmd description : jsstring)
    (opts : capture_options) : prog :=
  Emit (Submit cmd description opts)
       (external (body_of (client cmd description opts))).

(** [captureCommands]. *)
Definition captureCommands (client : MemoryBoxClient)
    (commands : list jsstring) (opts : capture_options) : prog :=
  AwaitAllSettled (map (fun cmd => addCommand client cmd [] opts) commands)
                  Return.

(** The operation that [queueCapture] builds. *)
Definition capture_operation (client : option MemoryBoxClient)
    (result : capture_request) : operation :=
  AsyncFn
    match client with
    | None => Return
    | Some client =>
        AwaitCall (captureCommands client (commands result) (options result))
                  Return
    end.

(** [queueCapture]. *)
Definition queueCapture (queue : OperationQueue)
    (client : option MemoryBoxClient) (result : capture_request)
    (st : state) : OperationQueue * state :=
  enqueue queue (capture_operation client result) st.

(** ** Runs of a queue

    What the properties of the queue quantify over: the operations callers
    hand to [enqueue], and the moments at which they do so. *)

Inductive queued_operation :=
| ExtAsync (b : body)               (* [async () => { b }] *)
| ExtThrow (effects : list nat)     (* [() => { effects; throw ... }] *)
| Capture (client : option MemoryBoxClient) (result : capture_request).
                                    (* the operation of [queueCapture] *)

Definition operation_of (op : queued_operation) : operation :=
  match op with
  | ExtAsync b => AsyncFn (external b)
  | ExtThrow effects => Thrower effects
  | Capture client result => capture_operation client result
  end.

Fixpoint effects (b : body) : list nat :=
  match b with
  | BReturn | BThrow => []
  | BEffect n k => n :: effects k
  | BWait _ k => effects k
  end.

Fixpoint outcome (b : body) : settled :=
  match b with
  | BReturn => Fulfilled
  | BThrow => Rejected
  | BEffect _ k | BWait _ k => outcome k
  end.

Definition op_outcome (op : queued_operation) : settled :=
  match op with
  | ExtAsync b => outcome b
  | ExtThrow _ => Rejected
  | Capture _ _ => Fulfilled
  end.

(** The submission calls of a capture request, in the order of its
    commands. *)
Definition submissions (result : capture_request) : list event :=
  map (fun cmd => Submit cmd [] (options result)) (commands result).

(** What one operation shows of itself, from its start to its end. *)
Definition op_events (op : queued_operation) : list event :=
  match op with
  | ExtAsync b => map Effect (effects b)
  | ExtThrow effects => map Effect effects
  | Capture None _ => []
  | Capture (Some _) result => submissions result
  end.

Definition op_trace (op : queued_operation) : list event :=
  OpStart :: op_events op ++ [OpEnd (op_outcome op)].

(** A caller enqueues an operation, or the event loop takes a turn. *)
Inductive action :=
| Enqueue (op : queued_operation)
| Turn.

Definition act `{TimerPolicy} (qs : OperationQueue * state) (a : action)
    : OperationQueue * state :=
  match a with
  | Enqueue op => enqueue (fst qs) (operation_of op) (snd qs)
  | Turn => (fst qs, run 1 (snd qs))
  end.

Definition play `{TimerPolicy} (script : list action)
    : OperationQueue * state :=
  fold_left act script (new_OperationQueue initial).

Fixpoint enqueued (script : list action) : list queued_operation :=
  match script with
  | [] => []
  | Enqueue op :: script => op :: enqueued script
  | Turn :: script => enqueued script
  end.

(** One operation at a time: an operation starts only when none is
    running, and effects and submissions occur only inside one. *)
Fixpoint one_at_a_time (running : bool) (t : list event) : bool :=
  match t with
  | [] => true
  | OpStart :: t => negb running && one_at_a_time true t
  | OpEnd _ :: t => running && one_at_a_time false t
  | (Effect _ | Submit _ _ _) :: t => running && one_at_a_time true t
  end.

Definition is_submit (e : event) : bool :=
  match e with
  | Submit _ _ _ => true
  | _ => false
  end.

(** The submission calls in a trace. *)
Definition submits (t : list event) : list event := List.filter is_submit t.

(** The submission calls that an operation is to make. *)
Definition op_submissions (op : queued_operation) : list event :=
  match op with
  | Capture (Some _) result => submissions result
  | _ => []
  end.

(** Nothing is left to run. *)
Definition quiescent (st : state) : Prop := micro st = [] /\ timers st = [].

(** ** Scenarios of the test suite *)

(** Three operations, the first two slower than the third. *)
Definition slow_first : list action :=
  [Enqueue (ExtAsync (BWait 10 (BEffect 1 BReturn)));
   Enqueue (ExtAsync (BWait 5 (BEffect 2 BReturn)));
   Enqueue (ExtAsync (BEffect 3 BReturn))].

(** Three operations, the second of which fails. *)
Definition failing_second : list action :=
  [Enqueue (ExtAsync (BEffect 1 BReturn));
   Enqueue (ExtAsync (BEffect 2 BThrow));
   Enqueue (ExtAsync (BEffect 3 BReturn))].

(** A client that rejects the command [cmd2] and takes a moment for any
    other. *)
Definition rejecting_cmd2 : MemoryBoxClient :=
  fun cmd _ _ =>
    if decide (cmd = lit "cmd2") then Settles Rejected
    else Waits 1 (Settles Fulfilled).

Definition success_options : capture_options :=
  {| context := Some (lit "/workspace"); status := lit "success" |}.

Definition three_commands : list jsstring :=
  [lit "cmd1"; lit "cmd2"; lit "cmd3"].

(** Captures of several terminal events, one of them without a client. *)
Definition several_captures : list action :=
  [Enqueue (Capture (Some rejecting_cmd2)
              {| commands := [lit "success1"; lit "cmd2"];
                 options := success_options |});
   Enqueue (Capture None
              {| commands := [lit "ignored"]; options := success_options |});
   Turn;
   Enqueue (Capture (Some rejecting_cmd2)
              {| commands := [lit "success3"]; options := success_options |})].

(** * Properties *)

(** ** The timer policy of the examples *)

Lemma earliest_cons t ts :
  exists x rest,
    earliest (t :: ts) = Some (x, rest) /\ Permutation (t :: ts) (x :: rest).
Proof.
  revert t. induction ts as [|u ts IH]; intros t.
  - exists t, []. split; reflexivity.
  - destruct (IH u) as (x & rest & E & HP).
    change (earliest (t :: u :: ts))
      with (match earliest (u :: ts) with
            | Some (x, rest) =>
                if fst x <? fst t then Some (x, t :: rest)
                else Some (t, u :: ts)
            | None => Some (t, [])
            end).
    rewrite E. destruct (fst x <? fst t).
    + exists x, (t :: rest). split; [reflexivity|].
      rewrite HP. apply perm_swap.
    + exists t, (u :: ts). split; reflexivity.
Qed.

#[export] Instance earliest_policy : TimerPolicy :=
  {| pick := earliest; pick_nil := eq_refl; pick_cons := earliest_cons |}.

(** ** The scenarios, run *)

Example slow_first_run :
  trace (run 40 (play slow_first).2)
  = [OpStart; Effect 1; OpEnd Fulfilled; OpStart; Effect 2; OpEnd Fulfilled;
     OpStart; Effect 3; OpEnd Fulfilled].
Proof. vm_compute. reflexivity. Qed.

Example failing_second_run :
  trace (run 40 (play failing_second).2)
  = [OpStart; Effect 1; OpEnd Fulfilled; OpStart; Effect 2; OpEnd Rejected;
     OpStart; Effect 3; OpEnd Fulfilled]
  /\ heap (run 40 (play failing_second).2) !! queue (play failing_second).1
     = Some (Settled Fulfilled).
Proof. vm_compute. split; reflexivity. Qed.

Example rejecting_cmd2_run :
  let r := invoke (captureCommands rejecting_cmd2 three_commands
                     success_options) initial in
  trace (run 40 r.2)
  = [Submit (lit "cmd1") [] success_options;
     Submit (lit "cmd2") [] success_options;
     Submit (lit "cmd3") [] success_options]
  /\ heap (run 40 r.2) !! r.1 = Some (Settled Fulfilled).
Proof. vm_compute. split; reflexivity. Qed.

Example several_captures_run :
  trace (run 60 (play several_captures).2)
  = [OpStart; Submit (lit "success1") [] success_options;
     Submit (lit "cmd2") [] success_options; OpEnd Fulfilled;
     OpStart; OpEnd Fulfilled;
     OpStart; Submit (lit "success3") [] success_options; OpEnd Fulfilled]
  /\ quiescent (run 60 (play several_captures).2).
Proof. vm_compute. repeat split; reflexivity. Qed.

Example split_mixed :
  splitCommands (lit "cmd1 && cmd2 || cmd3; cmd4")
  = [lit "cmd1"; lit "cmd2"; lit "cmd3"; lit "cmd4"].
Proof. reflexivity. Qed.

Example split_script :
  splitCommands (lit "cd /workspace && npm install" ++ [LF]
                 ++ lit "npm test || echo tests; docker run myapp")
  = [lit "cd /workspace"; lit "npm install"; lit "npm test";
     lit "echo tests"; lit "docker run myapp"].
Proof. reflexivity. Qed.

Example split_odd_bars :
  splitCommands (lit "a|||b & c") = [lit "a"; lit "|b & c"].
Proof. reflexivity. Qed.

(** ** String primitives *)

Section StringFacts.

Implicit Types s t R S rest cur : jsstring.

Lemma trim_start_suffix s :
  exists w, s = w ++ trim_start s /\ forallb is_white_space w = true.
Proof.
  induction s as [|c r [w [Hw Hall]]]; simpl.
  - exists []. auto.
  - destruct (is_white_space c) eqn:Hc.
    + exists (c :: w). simpl. rewrite Hc, Hall. split; [congruence | reflexivity].
    + exists []. auto.
Qed.

Lemma trim_start_head s c r :
  trim_start s = c :: r -> is_white_space c = false.
Proof.
  induction s as [|d s IH]; simpl; [discriminate|].
  destruct (is_white_space d) eqn:Hd; [exact IH|].
  intros [= <- _]. exact Hd.
Qed.

Lemma trim_start_fixed c r :
  is_white_space c = false -> trim_start (c :: r) = c :: r.
Proof. intros H. simpl. now rewrite H. Qed.

Lemma trim_start_blank s :
  forallb is_white_space s = true -> trim_start s = [].
Proof.
  induction s as [|c r IH]; simpl; [reflexivity|].
  intros [Hc Hr]%andb_true_iff. rewrite Hc. auto.
Qed.

Lemma trim_start_nil_blank s :
  trim_start s = [] -> forallb is_white_space s = true.
Proof.
  induction s as [|c r IH]; simpl; [reflexivity|].
  destruct (is_white_space c); [auto | discriminate].
Qed.

Lemma forallb_rev (f : N -> bool) s : forallb f (rev s) = forallb f s.
Proof.
  induction s as [|c r IH]; simpl; [reflexivity|].
  rewrite forallb_app, IH. simpl. rewrite andb_true_r. apply andb_comm.
Qed.

Lemma trim_end_prefix s :
  exists w, s = trim_end s ++ w /\ forallb is_white_space w = true.
Proof.
  unfold trim_end.
  destruct (trim_start_suffix (rev s)) as [w [Hw Hall]].
  exists (rev w). split.
  - rewrite <- rev_app_distr, <- Hw. now rewrite rev_involutive.
  - now rewrite forallb_rev.
Qed.

Lemma trim_end_last s t c :
  trim_end s = t ++ [c] -> is_white_space c = false.
Proof.
  unfold trim_end. intros H.
  apply (f_equal (@rev N)) in H.
  rewrite rev_involutive, rev_app_distr in H. simpl in H.
  exact (trim_start_head _ _ _ H).
Qed.

Lemma trim_end_fixed t c :
  is_white_space c = false -> trim_end (t ++ [c]) = t ++ [c].
Proof.
  intros H. unfold trim_end. rewrite rev_app_distr. simpl.
  rewrite H. simpl. now rewrite rev_involutive.
Qed.

Lemma trim_blank s : forallb is_white_space s = true -> trim s = [].
Proof. intros H. unfold trim. now rewrite (trim_start_blank _ H). Qed.

Lemma trim_first s a m : trim s = a :: m -> is_white_space a = false.
Proof.
  unfold trim. intros E.
  destruct (trim_end_prefix (trim_start s)) as [w [Hw _]].
  rewrite E in Hw. exact (trim_start_head _ _ _ Hw).
Qed.

Lemma trim_last s t z : trim s = t ++ [z] -> is_white_space z = false.
Proof. unfold trim. apply trim_end_last. Qed.

Lemma trim_idempotent s : trim (trim s) = trim s.
Proof.
  destruct (trim s) as [|a m] eqn:E; [reflexivity|].
  unfold trim at 1. rewrite (trim_start_fixed _ _ (trim_first _ _ _ E)).
  destruct (exists_last (l := a :: m)) as [t [z Hz]]; [discriminate|].
  rewrite Hz in E |- *. apply trim_end_fixed. exact (trim_last _ _ _ E).
Qed.

End StringFacts.

(** ** The two [split]s against their left-to-right readings *)

Section SplitFacts.

Import Reference.
Implicit Types s t S rest cur line : jsstring.

Lemma index_from_newline rest : forall i cur,
  match index_from [LF] rest i with
  | None => lines_go cur rest = [cur ++ rest]
  | Some j =>
      i <= j /\ j - i < length rest /\
      lines_go cur rest
      = (cur ++ take (j - i) rest) :: lines_go [] (drop (S (j - i)) rest)
  end.
Proof.
  induction rest as [|c r IH]; intros i cur.
  - simpl. now rewrite app_nil_r.
  - cbn [index_from starts_with lines_go]. rewrite andb_true_r.
    rewrite (N.eqb_sym LF c).
    destruct (c =? LF)%N.
    + replace (i - i) with 0 by lia. simpl. rewrite app_nil_r.
      repeat split; lia.
    + specialize (IH (S i) (cur ++ [c])).
      destruct (index_from [LF] r (S i)) as [j|].
      * destruct IH as (Hle & Hlt & IH).
        replace (j - i) with (S (j - S i)) by lia. simpl.
        rewrite IH, <- app_assoc. simpl. repeat split; lia.
      * rewrite IH, <- app_assoc. reflexivity.
Qed.

Lemma split_loop_lines S : forall fuel i A,
  i <= length S -> length S - i <= fuel ->
  split_loop fuel S [LF] i (StringIndexOf S [LF] i) A
  = A ++ lines_go [] (drop i S).
Proof.
  induction fuel as [|fuel IH]; intros i A Hi Hfuel;
    unfold StringIndexOf; (destruct (Nat.leb_spec i (length S)); [|lia]);
    pose proof (index_from_newline (drop i S) i []) as Hix;
    rewrite length_drop in Hix;
    destruct (index_from [LF] (drop i S) i) as [j|].
  - lia.
  - simpl. rewrite Hix. unfold substring. rewrite take_ge; [reflexivity|].
    rewrite length_drop. lia.
  - destruct Hix as (Hle & Hlt & Hix). cbn [split_loop].
    rewrite IH by (simpl; lia). rewrite Hix, <- app_assoc. simpl.
    unfold substring. rewrite drop_drop.
    replace (i + Datatypes.S (j - i)) with (j + 1) by lia. reflexivity.
  - simpl. rewrite Hix. unfold substring. rewrite take_ge; [reflexivity|].
    rewrite length_drop. lia.
Qed.

Lemma String_split_lines S : String_split S [LF] = lines S.
Proof.
  unfold String_split, lines. destruct S as [|c r]; [reflexivity|].
  cbn [length Nat.eqb].
  now rewrite split_loop_lines by (simpl; lia).
Qed.

Lemma match_at_separator S q :
  match_at separator S q
  = option_map (fun op => q + length op)
      (List.find (fun op => starts_with op (drop q S)) operators).
Proof.
  unfold separator, operators. cbn [match_at List.find].
  destruct (starts_with (lit "||") (drop q S)); [reflexivity|].
  destruct (starts_with (lit "&&") (drop q S)); [reflexivity|].
  destruct (starts_with (lit ";") (drop q S)); reflexivity.
Qed.

Lemma starts_with_length R S : starts_with R S = true -> length R <= length S.
Proof.
  revert S. induction R as [|a R IH]; intros [|b S]; simpl;
    try lia; try discriminate.
  intros [_ H]%andb_true_iff. apply IH in H. lia.
Qed.

Lemma operators_nonempty op : In op operators -> 0 < length op.
Proof.
  unfold operators. simpl. intros [<-|[<-|[<-|[]]]]; simpl; lia.
Qed.

Lemma fragments_go_skip rest : forall k cur,
  k <= length rest ->
  fragments_go k cur rest = fragments_go 0 cur (drop k rest).
Proof.
  induction rest as [|c r IH]; intros k cur Hk.
  - simpl in Hk. now replace k with 0 by lia.
  - destruct k as [|k]; [reflexivity|].
    cbn [fragments_go drop]. apply IH. simpl in Hk. lia.
Qed.

Lemma substring_snoc S p q c r :
  p <= q -> drop q S = c :: r ->
  substring S p (q + 1) = substring S p q ++ [c].
Proof.
  intros Hpq Hd. unfold substring.
  replace (q + 1 - p) with (Datatypes.S (q - p)) by lia.
  assert (Hlk : drop p S !! (q - p) = Some c).
  { rewrite lookup_drop. replace (p + (q - p)) with q by lia.
    rewrite <- (Nat.add_0_r q), <- lookup_drop, Hd. reflexivity. }
  now rewrite (take_S_r _ _ _ Hlk).
Qed.

Lemma regexp_split_loop_fragments S : forall fuel p q A,
  p <= q -> q <= length S -> length S - q < fuel ->
  regexp_split_loop fuel separator S p q A
  = A ++ fragments_go 0 (substring S p q) (drop q S).
Proof.
  induction fuel as [|fuel IH]; intros p q A Hpq Hq Hfuel; [lia|].
  cbn [regexp_split_loop].
  destruct (Nat.ltb_spec q (length S)) as [Hlt|Hge].
  - destruct (drop q S) as [|c r] eqn:Hd.
    { apply (f_equal (@length N)) in Hd. rewrite length_drop in Hd.
      simpl in Hd. lia. }
    rewrite match_at_separator, Hd. cbn [fragments_go].
    destruct (List.find _ operators) as [op|] eqn:Hfind; cbn [option_map].
    + apply find_some in Hfind as [Hin Hsw].
      pose proof (operators_nonempty _ Hin) as Hpos.
      pose proof (starts_with_length _ _ Hsw) as Hlen.
      rewrite <- Hd, length_drop in Hlen.
      rewrite Nat.min_l by lia.
      destruct (Nat.eqb_spec (q + length op) p); [lia|].
      rewrite IH by lia. rewrite <- app_assoc. cbn [app]. do 2 f_equal.
      assert (Hr : r = drop (q + 1) S).
      { rewrite <- drop_drop, Hd. reflexivity. }
      rewrite (fragments_go_skip r (length op - 1)).
      * unfold substring. rewrite Nat.sub_diag, Hr, drop_drop.
        replace (q + 1 + (length op - 1)) with (q + length op) by lia.
        reflexivity.
      * rewrite Hr, length_drop. lia.
    + rewrite IH by lia.
      rewrite (substring_snoc S p q c r Hpq Hd).
      rewrite <- drop_drop, Hd. reflexivity.
  - replace q with (length S) by lia. rewrite drop_all. reflexivity.
Qed.

Lemma RegExp_split_fragments line :
  RegExp_split separator line = fragments line.
Proof.
  unfold RegExp_split, fragments. destruct line as [|c r]; [reflexivity|].
  cbn [length Nat.eqb].
  now rewrite regexp_split_loop_fragments by (simpl; lia).
Qed.

(** The two [forEach] loops with their shared array, as list functions. *)
Lemma push_trimmed parts : forall acc,
  fold_left
    (fun commands cmd =>
       if 0 <? length (trim cmd) then commands ++ [trim cmd] else commands)
    parts acc
  = acc ++ List.filter nonempty (map trim parts).
Proof.
  induction parts as [|x parts IH]; intros acc; simpl.
  - now rewrite app_nil_r.
  - rewrite IH. unfold nonempty at 2.
    destruct (length (trim x)); simpl; [reflexivity|].
    now rewrite <- app_assoc.
Qed.

Lemma filter_map_flat_map (h : jsstring -> list jsstring) ls :
  List.filter nonempty (map trim (flat_map h ls))
  = flat_map (fun l => List.filter nonempty (map trim (h l))) ls.
Proof.
  induction ls as [|l ls IH]; simpl; [reflexivity|].
  now rewrite map_app, List.filter_app, IH.
Qed.

Lemma push_lines ls : forall acc,
  fold_left
    (fun commands line =>
       fold_left
         (fun commands cmd =>
            if 0 <? length (trim cmd) then commands ++ [trim cmd]
            else commands)
         (RegExp_split separator line) commands)
    ls acc
  = acc ++ flat_map (fun l => List.filter nonempty (map trim (fragments l))) ls.
Proof.
  induction ls as [|l ls IH]; intros acc; simpl.
  - now rewrite app_nil_r.
  - rewrite IH, push_trimmed, RegExp_split_fragments, app_assoc. reflexivity.
Qed.

Lemma splitCommands_reference s :
  splitCommands s = splitCommands_spec s.
Proof.
  unfold splitCommands, splitCommands_spec.
  rewrite String_split_lines, filter_map_flat_map.
  apply push_lines.
Qed.

End SplitFacts.

(** ** Inputs without a command *)

Section BlankInputs.

Import Reference.
Implicit Types s cur line : jsstring.

Lemma SeparatorsOnly_app s t :
  SeparatorsOnly s -> SeparatorsOnly t -> SeparatorsOnly (s ++ t).
Proof.
  induction 1 as [|c s Hc _ IH|op s Hop _ IH]; intros Ht; simpl.
  - exact Ht.
  - apply so_space; auto.
  - rewrite <- app_assoc. apply so_operator; auto.
Qed.

Lemma SeparatorsOnly_operator op : In op operators -> SeparatorsOnly op.
Proof.
  intros H. rewrite <- (app_nil_r op). apply so_operator; [exact H|constructor].
Qed.

Lemma all_white_space_SeparatorsOnly s :
  all_white_space s = true -> SeparatorsOnly s.
Proof.
  induction s as [|c r IH]; simpl; [constructor|].
  intros [Hc Hr]%andb_true_iff. apply so_space; auto.
Qed.

Lemma separators_only_complete s :
  SeparatorsOnly s -> separators_only s = true.
Proof.
  induction 1 as [|c s Hc _ IH|op s Hop _ IH].
  - reflexivity.
  - simpl. now rewrite Hc.
  - destruct Hop as [<-|[<-|[<-|[]]]]; exact IH.
Qed.

Lemma separators_only_sound_upto n : forall s,
  length s <= n -> separators_only s = true -> SeparatorsOnly s.
Proof.
  induction n as [|n IH]; intros [|c r] Hlen H;
    try apply so_nil; simpl in Hlen; try lia.
  simpl in H. destruct (is_white_space c) eqn:Hc.
  { apply so_space; [exact Hc|]. apply IH; [lia|exact H]. }
  destruct (N.eqb_spec c 59) as [->|_].
  { apply (so_operator (lit ";") r); [simpl; auto|]. apply IH; [lia|exact H]. }
  destruct r as [|d r']; [discriminate|].
  apply andb_true_iff in H as [Hcd Hr'].
  assert (Hrec : SeparatorsOnly r') by (apply IH; [simpl in Hlen; lia|exact Hr']).
  apply orb_true_iff in Hcd as [Hcd|Hcd];
    apply andb_true_iff in Hcd as [->%N.eqb_eq ->%N.eqb_eq].
  - apply (so_operator (lit "||") r'); [simpl; auto|exact Hrec].
  - apply (so_operator (lit "&&") r'); [simpl; auto|exact Hrec].
Qed.

Lemma separators_only_spec s :
  separators_only s = true <-> SeparatorsOnly s.
Proof.
  split.
  - apply (separators_only_sound_upto (length s)). lia.
  - apply separators_only_complete.
Qed.

Lemma lines_SeparatorsOnly s :
  SeparatorsOnly s -> forall cur,
  SeparatorsOnly cur -> Forall SeparatorsOnly (lines_go cur s).
Proof.
  induction 1 as [|c s Hc _ IH|op s Hop _ IH]; intros cur Hcur.
  - repeat constructor. exact Hcur.
  - simpl. destruct (c =? LF)%N.
    + constructor; [exact Hcur|]. apply IH. constructor.
    + apply IH. apply SeparatorsOnly_app; [exact Hcur|].
      apply so_space; [exact Hc|constructor].
  - pose proof (SeparatorsOnly_operator op Hop) as Hso.
    destruct Hop as [<-|[<-|[<-|[]]]]; simpl; apply IH;
      rewrite <- ?app_assoc; apply SeparatorsOnly_app; assumption.
Qed.

Lemma operator_head op :
  In op operators ->
  exists a R, op = a :: R /\ is_white_space a = false.
Proof.
  intros [<-|[<-|[<-|[]]]]; eexists _, _; split; reflexivity.
Qed.

Lemma operator_not_space op c r :
  In op operators -> is_white_space c = true -> starts_with op (c :: r) = false.
Proof.
  intros (a & R & -> & Ha)%operator_head Hc.
  change (((a =? c)%N && starts_with R r) = false).
  destruct (N.eqb_spec a c) as [->|_]; [congruence|reflexivity].
Qed.

Lemma fragments_blank s :
  SeparatorsOnly s -> forall cur,
  all_white_space cur = true ->
  Forall (fun f => all_white_space f = true) (fragments_go 0 cur s).
Proof.
  induction 1 as [|c s Hc _ IH|op s Hop _ IH]; intros cur Hcur.
  - repeat constructor. exact Hcur.
  - cbn [fragments_go].
    assert (Hfind :
      List.find (fun op => starts_with op (c :: s)) operators = None).
    { unfold operators. cbn [List.find].
      rewrite !operator_not_space by (simpl; auto). reflexivity. }
    rewrite Hfind. apply IH.
    unfold all_white_space in *. rewrite forallb_app, Hcur. simpl.
    now rewrite Hc.
  - destruct Hop as [<-|[<-|[<-|[]]]]; simpl;
      (constructor; [exact Hcur|]); apply IH; reflexivity.
Qed.

Lemma splitCommands_SeparatorsOnly s :
  SeparatorsOnly s -> splitCommands s = [].
Proof.
  intros Hs. rewrite splitCommands_reference. unfold splitCommands_spec.
  rewrite filter_map_flat_map.
  pose proof (lines_SeparatorsOnly s Hs [] so_nil) as Hlines.
  fold (lines s) in Hlines.
  induction Hlines as [|l ls Hl _ IH]; simpl; [reflexivity|].
  rewrite IH, app_nil_r.
  pose proof (fragments_blank l Hl [] eq_refl) as Hfr.
  fold (fragments l) in Hfr.
  induction Hfr as [|f fs Hf _ IHf]; simpl; [reflexivity|].
  rewrite (trim_blank f Hf). simpl. exact IHf.
Qed.

End BlankInputs.

(** ** Properties of the splitter *)

(** C3. Every entry of the list returned by [splitCommands] has positive
    length, equals its own trimmed form, and neither begins nor ends with a
    white-space code unit. *)
Theorem splitCommands_entries_trimmed (s : jsstring) :
  Forall (fun e : jsstring =>
            0 < length e /\ trim e = e
            /\ is_white_space <$> head e = Some false
            /\ is_white_space <$> last e = Some false)
         (splitCommands s).
Proof.
  rewrite splitCommands_reference. unfold Reference.splitCommands_spec.
  apply List.Forall_forall. intros e [Hin Hne]%filter_In.
  apply in_map_iff in Hin as [x [<- _]].
  unfold Reference.nonempty in Hne.
  destruct (trim x) as [|a m] eqn:E; [discriminate|].
  rewrite <- E, trim_idempotent, E. repeat split.
  - simpl. lia.
  - simpl. now rewrite (trim_first _ _ _ E).
  - destruct (exists_last (l := a :: m)) as [t [z Hz]]; [discriminate|].
    rewrite Hz, last_snoc. simpl. rewrite Hz in E.
    now rewrite (trim_last _ _ _ E).
Qed.

(** C4. [splitCommands] equals the reference algorithm of the
    specification (lines, then fragments between operators, trimmed, the
    empty ones dropped, in order); and ["a && b; c || d"] splits into
    [a], [b], [c], [d]. *)
Theorem splitCommands_is_reference :
  (forall s : jsstring, splitCommands s = Reference.splitCommands_spec s)
  /\ splitCommands (lit "a && b; c || d")
     = [lit "a"; lit "b"; lit "c"; lit "d"].
Proof.
  split; [exact splitCommands_reference|reflexivity].
Qed.

(** C9. [splitCommands] returns the empty list for every input made of
    operators and white space only, hence for every white-space-only input
    and for the empty string; the three inputs of the test suite are
    instances. *)
Theorem splitCommands_blank :
  (forall s : jsstring, separators_only s = true -> splitCommands s = [])
  /\ (forall s : jsstring, all_white_space s = true -> splitCommands s = [])
  /\ splitCommands [] = []
  /\ splitCommands (lit "   " ++ [LF; LF] ++ lit "   ") = []
  /\ splitCommands (lit "&& || ;") = [].
Proof.
  split; [|split; [|repeat split]].
  - intros s Hs. apply splitCommands_SeparatorsOnly.
    now apply separators_only_spec.
  - intros s Hs. apply splitCommands_SeparatorsOnly.
    now apply all_white_space_SeparatorsOnly.
Qed.

Lemma splitCommands_blank_witness :
  separators_only (lit " ;; &&" ++ [LF] ++ lit "|| ") = true
  /\ splitCommands (lit " ;; &&" ++ [LF] ++ lit "|| ") = []
  /\ all_white_space (lit "  " ++ [LF; 0x3000%N]) = true
  /\ splitCommands (lit "  " ++ [LF; 0x3000%N]) = [].
Proof.
  split; [reflexivity|]. split.
  - apply (proj1 splitCommands_blank). reflexivity.
  - split; [reflexivity|].
    apply (proj1 (proj2 splitCommands_blank)). reflexivity.
Defined.

(** ** Properties of the execution processor *)

Lemma trim_empty_iff (s : jsstring) :
  length (trim s) = 0 <-> all_white_space s = true.
Proof.
  split.
  - intros H. apply length_zero_iff_nil in H. unfold trim in H.
    destruct (trim_end_prefix (trim_start s)) as [w [Hw Hall]].
    rewrite H in Hw. simpl in Hw.
    destruct (trim_start s) as [|a m] eqn:E.
    + now apply trim_start_nil_blank.
    + pose proof (trim_start_head _ _ _ E) as Ha.
      rewrite <- Hw in Hall. simpl in Hall. now rewrite Ha in Hall.
  - intros H. now rewrite (trim_blank s H).
Qed.

Lemma skip_blank_iff (commandLine : jsstring) :
  falsy commandLine || (length (trim commandLine) =? 0) = true
  <-> commandLine = [] \/ all_white_space commandLine = true.
Proof.
  rewrite orb_true_iff, Nat.eqb_eq, trim_empty_iff.
  destruct commandLine; simpl; intuition congruence.
Qed.

Lemma derived_status_code (exitCode : option Z) :
  derived_status exitCode
  = if negb (strict_ne_zero exitCode) then lit "success" else lit "failed".
Proof. destruct exitCode as [[| |]|]; reflexivity. Qed.

Lemma derived_status_success (exitCode : option Z) :
  derived_status exitCode = lit "success" <-> strict_ne_zero exitCode = false.
Proof.
  destruct exitCode as [[| |]|]; simpl; split; intros H;
    try reflexivity; discriminate H.
Qed.

(** C5. [processTerminalExecution] returns [null] exactly when the command
    line is empty or all white space, or the success-only flag is set and
    the derived status is not [success]; otherwise it returns the request
    made of [splitCommands commandLine] and [{ context, status }]. *)
Theorem processTerminalExecution_null_iff (commandLine : jsstring)
    (exitCode : option Z) (workspaceContext : option jsstring)
    (captureSuccessOnly : bool) :
  (processTerminalExecution commandLine exitCode workspaceContext
     captureSuccessOnly = None
   <-> (commandLine = [] \/ all_white_space commandLine = true)
       \/ (captureSuccessOnly = true
           /\ derived_status exitCode <> lit "success"))
  /\ (processTerminalExecution commandLine exitCode workspaceContext
        captureSuccessOnly <> None ->
      processTerminalExecution commandLine exitCode workspaceContext
        captureSuccessOnly
      = Some {| commands := splitCommands commandLine;
                options := {| context := workspaceContext;
                              status := derived_status exitCode |} |}).
Proof.
  unfold processTerminalExecution.
  pose proof (skip_blank_iff commandLine) as Hblank.
  pose proof (derived_status_success exitCode) as Hst.
  rewrite <- derived_status_code.
  destruct (falsy commandLine || (length (trim commandLine) =? 0)).
  { split; [|congruence]. split; [|reflexivity].
    intros _. left. now apply Hblank. }
  assert (Hnb : ~ (commandLine = [] \/ all_white_space commandLine = true)).
  { intros H. apply Hblank in H. discriminate H. }
  destruct captureSuccessOnly, (strict_ne_zero exitCode); simpl.
  - split; [|congruence]. split; [|reflexivity].
    intros _. right. split; [reflexivity|]. intros H. apply Hst in H.
    discriminate H.
  - split; [|reflexivity]. split; [discriminate|].
    intros [H|[_ H]]; [contradiction|]. exfalso. apply H. now apply Hst.
  - split; [|reflexivity]. split; [discriminate|].
    intros [H|[H _]]; [contradiction|discriminate H].
  - split; [|reflexivity]. split; [discriminate|].
    intros [H|[H _]]; [contradiction|discriminate H].
Qed.

Lemma processTerminalExecution_null_iff_witness :
  processTerminalExecution (lit "docker ps") (Some 1%Z)
    (Some (lit "/workspace")) false
  = Some {| commands := [lit "docker ps"];
            options := {| context := Some (lit "/workspace");
                          status := lit "failed" |} |}.
Proof.
  apply (proj2 (processTerminalExecution_null_iff (lit "docker ps")
                  (Some 1%Z) (Some (lit "/workspace")) false)).
  vm_compute. discriminate.
Defined.

(** C6. Whenever [processTerminalExecution] returns a request, its status
    is [success] if and only if the exit code is exactly [0], and it is
    [failed] for every other exit code and for an absent one. *)
Theorem processTerminalExecution_status (commandLine : jsstring)
    (exitCode : option Z) (workspaceContext : option jsstring)
    (captureSuccessOnly : bool) (r : capture_request) :
  processTerminalExecution commandLine exitCode workspaceContext
    captureSuccessOnly = Some r ->
  (status (options r) = lit "success" <-> exitCode = Some 0%Z)
  /\ (exitCode <> Some 0%Z -> status (options r) = lit "failed").
Proof.
  unfold processTerminalExecution.
  destruct (falsy commandLine || (length (trim commandLine) =? 0));
    [discriminate|].
  destruct (captureSuccessOnly && strict_ne_zero exitCode); [discriminate|].
  intros [= <-]. cbn [options status].
  destruct exitCode as [[| |]|]; simpl; split;
    try split; try congruence; try discriminate.
Qed.

Lemma processTerminalExecution_status_witness :
  (status (options {| commands := [lit "ls"];
                      options := {| context := Some (lit "/workspace");
                                    status := lit "failed" |} |})
   = lit "success" <-> @None Z = Some 0%Z)
  /\ (@None Z <> Some 0%Z ->
      status (options {| commands := [lit "ls"];
                         options := {| context := Some (lit "/workspace");
                                       status := lit "failed" |} |})
      = lit "failed").
Proof.
  apply (processTerminalExecution_status (lit "ls") None
           (Some (lit "/workspace")) false).
  reflexivity.
Defined.

(** C10. A command line of operators only, such as [;] or [&& || ;], is
    neither empty nor all white space, and with exit code [0] and the
    success-only flag unset [processTerminalExecution] returns for it a
    request (not [null]) whose list of commands is empty. *)
Theorem processTerminalExecution_empty_request :
  forall workspaceContext : option jsstring,
  (lit ";" <> [] /\ all_white_space (lit ";") = false
   /\ processTerminalExecution (lit ";") (Some 0%Z) workspaceContext false
      = Some {| commands := [];
                options := {| context := workspaceContext;
                              status := lit "success" |} |})
  /\ (lit "&& || ;" <> [] /\ all_white_space (lit "&& || ;") = false
      /\ processTerminalExecution (lit "&& || ;") (Some 0%Z)
           workspaceContext false
         = Some {| commands := [];
                   options := {| context := workspaceContext;
                                 status := lit "success" |} |}).
Proof.
  intros workspaceContext. repeat split; discriminate.
Qed.

(** ** Reasoning on the promise heap

    A heap is described by the cells of some promises, all different: what
    a piece of code does to one of them leaves the others as they are. *)

Section Heap.

Implicit Types (h : list cell) (desc : list (nat * cell)).

Definition heap_is h desc : Prop :=
  NoDup desc.*1 /\ forall x c, (x, c) ∈ desc -> h !! x = Some c.

Lemma heap_is_lookup h desc x c :
  heap_is h desc -> (x, c) ∈ desc -> h !! x = Some c.
Proof. intros [_ H]. apply H. Qed.

Lemma heap_is_submseteq h desc desc' :
  desc' ⊆+ desc -> heap_is h desc -> heap_is h desc'.
Proof.
  intros Hsub [Hnd Hlk]. split.
  - apply submseteq_Permutation in Hsub as [k Hk].
    rewrite Hk, fmap_app in Hnd. now apply NoDup_app in Hnd as [? _].
  - intros x c Hin. apply Hlk. eapply elem_of_submseteq; eassumption.
Qed.

Lemma heap_is_fresh h desc x c :
  heap_is h desc -> (x, c) ∈ desc -> x < length h.
Proof. intros Hh Hin. eapply lookup_lt_Some, heap_is_lookup; eassumption. Qed.

Lemma heap_is_update h desc x c c' :
  heap_is h ((x, c) :: desc) -> heap_is (<[x := c']> h) ((x, c') :: desc).
Proof.
  intros [Hnd Hlk]. split; [exact Hnd|].
  rewrite fmap_cons in Hnd. apply NoDup_cons in Hnd as [Hx _].
  intros y d [[= -> ->]|Hin]%elem_of_cons.
  - apply list_lookup_insert_eq. eapply lookup_lt_Some, Hlk. left.
  - rewrite list_lookup_insert_ne.
    + apply Hlk. now right.
    + intros ->. apply Hx. apply list_elem_of_fmap. now exists (y, d).
Qed.

Lemma heap_is_alloc h desc c :
  heap_is h desc -> heap_is (h ++ [c]) ((length h, c) :: desc).
Proof.
  intros [Hnd Hlk]. split.
  - rewrite fmap_cons. apply NoDup_cons. split; [|exact Hnd].
    intros [[y d] [Hy Hin]]%list_elem_of_fmap. simpl in Hy. subst y.
    apply Hlk, lookup_lt_Some in Hin. lia.
  - intros y d [[= -> ->]|Hin]%elem_of_cons.
    + rewrite lookup_app_r by lia. now rewrite Nat.sub_diag.
    + rewrite lookup_app_l; [now apply Hlk|].
      eapply lookup_lt_Some, Hlk, Hin.
Qed.

End Heap.

(** The promise primitives, where the cell of the promise is known. *)

Section Primitives.

Implicit Types (st : state) (p : nat).

Definition job_of (s : settled) (r : reaction) : job :=
  ReactionJob (handler_for s r) s (derived r).

Lemma settle_pending p s st rs :
  heap st !! p = Some (Pending rs) ->
  settle p s st = push_jobs (map (job_of s) rs) (store p (Settled s) st).
Proof. unfold settle. now intros ->. Qed.

Lemma perform_then_pending p r st rs :
  heap st !! p = Some (Pending rs) ->
  perform_then p r st = store p (Pending (rs ++ [r])) st.
Proof. unfold perform_then. now intros ->. Qed.

Lemma perform_then_settled p r st s :
  heap st !! p = Some (Settled s) ->
  perform_then p r st = push_job (job_of s r) st.
Proof. unfold perform_then. now intros ->. Qed.

Definition logs (es : list nat) (st : state) : state :=
  fold_left (fun st n => log (Effect n) st) es st.

Lemma logs_State es h r m ts n tr :
  logs es (State h r m ts n tr) = State h r m ts n (tr ++ map Effect es).
Proof.
  revert tr. induction es as [|e es IH]; intros tr; simpl.
  - now rewrite app_nil_r.
  - change (logs es (State h r m ts n (tr ++ [Effect e]))
            = State h r m ts n (tr ++ Effect e :: map Effect es)).
    rewrite IH, <- app_assoc. reflexivity.
Qed.

(** The side effects of a body up to its first wait, and what is left
    then: a wait, or the end. *)
Fixpoint leading (b : body) : list nat :=
  match b with
  | BEffect n k => n :: leading k
  | _ => []
  end.

Fixpoint after_leading (b : body) : body :=
  match b with
  | BEffect _ k => after_leading k
  | _ => b
  end.

Lemma exec_leading b fr st :
  exec (external b) fr st
  = exec (external (after_leading b)) fr (logs (leading b) st).
Proof.
  revert st. induction b as [| |n k IH|ms k _]; intros st; try reflexivity.
  simpl. now rewrite IH.
Qed.

Lemma effects_leading b :
  effects b = leading b ++ effects (after_leading b).
Proof. induction b; simpl; congruence. Qed.

Lemma outcome_leading b : outcome (after_leading b) = outcome b.
Proof. induction b; simpl; congruence. Qed.

Lemma after_leading_cases b :
  (after_leading b = BReturn \/ after_leading b = BThrow)
  \/ exists ms k, after_leading b = BWait ms k.
Proof. induction b; simpl; eauto. Qed.

(** The number of waits of a body. *)
Fixpoint waits (b : body) : nat :=
  match b with
  | BReturn | BThrow => 0
  | BEffect _ k => waits k
  | BWait _ k => S (waits k)
  end.

Lemma waits_leading b : waits (after_leading b) = waits b.
Proof. induction b; simpl; congruence. Qed.

End Primitives.

(** ** Running external code *)

Section SequentialBodies.

Implicit Types (h : list cell) (b k : body).

Lemma insert_snoc h (c c' : cell) : <[length h := c']> (h ++ [c]) = h ++ [c'].
Proof.
  rewrite insert_app_r_alt by lia. now rewrite Nat.sub_diag.
Qed.

Definition tail_trace (k : body) : list event :=
  map Effect (effects k) ++ [OpEnd (outcome k)].

Definition awaiting (k : body) (fr : frame) : reaction :=
  Reaction (Some (HResume (external k) fr)) (Some (HThrowInto fr)) None.

(** A body with a wait ahead runs up to it and leaves a timer. *)
Lemma exec_external_wait b fr ms k h r m ts n tr :
  after_leading b = BWait ms k ->
  exec (external b) fr (State h r m ts n tr)
  = State (h ++ [Pending [awaiting k fr]]) r m (ts ++ [(n + ms, length h)]) n
          (tr ++ map Effect (leading b)).
Proof.
  intros E. rewrite exec_leading, E, logs_State. cbn [external exec alloc heap].
  unfold await, add_timer. cbn [heap remaining micro timers now trace].
  erewrite perform_then_pending.
  2:{ cbn [heap]. rewrite lookup_app_r by lia. now rewrite Nat.sub_diag. }
  unfold store. cbn [heap remaining micro timers now trace].
  now rewrite insert_snoc.
Qed.

(** A body without a wait ahead runs to its end: its promise settles. *)
Lemma exec_external_end b a obs h r m ts n tr rs :
  (after_leading b = BReturn \/ after_leading b = BThrow) ->
  h !! a = Some (Pending rs) ->
  exec (external b) (Frame a obs) (State h r m ts n tr)
  = State (<[a := Settled (outcome b)]> h) r
          (m ++ map (job_of (outcome b)) rs) ts n
          (tr ++ map Effect (leading b)
              ++ if obs then [OpEnd (outcome b)] else []).
Proof.
  intros E Ha. rewrite exec_leading, logs_State, <- (outcome_leading b).
  assert (Hfin : exec (external (after_leading b)) (Frame a obs)
                   (State h r m ts n (tr ++ map Effect (leading b)))
                 = finish (Frame a obs) (outcome (after_leading b))
                     (State h r m ts n (tr ++ map Effect (leading b)))).
  { destruct E as [-> | ->]; reflexivity. }
  rewrite Hfin. unfold finish. cbn [self observed].
  destruct obs; unfold log; cbn [heap remaining micro timers now trace];
    (erewrite settle_pending by exact Ha); unfold push_jobs, store;
    cbn [heap remaining micro timers now trace];
    rewrite <- ?app_assoc, ?app_nil_r; reflexivity.
Qed.

Lemma tail_trace_wait b ms k :
  after_leading b = BWait ms k ->
  tail_trace b = map Effect (leading b) ++ tail_trace k.
Proof.
  intros E. unfold tail_trace.
  rewrite (effects_leading b), <- (outcome_leading b), E. simpl.
  now rewrite map_app, <- app_assoc.
Qed.

Lemma tail_trace_end b :
  (after_leading b = BReturn \/ after_leading b = BThrow) ->
  tail_trace b = map Effect (leading b) ++ [OpEnd (outcome b)].
Proof.
  intros E. unfold tail_trace. rewrite (effects_leading b).
  destruct E as [-> | ->]; simpl; now rewrite app_nil_r.
Qed.

End SequentialBodies.

(** ** Tools *)

Ltac mem :=
  cbn [app];
  repeat first [apply list_elem_of_here | apply list_elem_of_further
               | apply elem_of_app; right].

(** What a turn does to a state, apart from its heap. *)
Record grows (st st' : state) (js : list job) (ts : list (nat * nat)) : Prop := {
  grows_micro : micro st' = micro st ++ js;
  grows_timers : timers st' = timers st ++ ts;
  grows_trace : trace st' = trace st
}.

Ltac facts :=
  repeat match goal with
         | |- _ /\ _ => split
         | |- grows _ _ _ _ => split
         end.

Ltac exact_lists :=
  repeat match goal with
         | H : _ ≡ₚ [] |- _ => apply Permutation_nil_r in H
         | H : _ ≡ₚ [_] |- _ => apply Permutation_singleton_r in H
         end.

Ltac same_trace :=
  repeat (rewrite <- ?app_assoc; cbn [app]); reflexivity.

Lemma heap_is_replace h desc x c c' others :
  heap_is h desc -> (x, c) :: others ⊆+ desc ->
  heap_is (<[x := c']> h) ((x, c') :: others).
Proof.
  intros Hh Hsub. apply heap_is_update with c.
  now apply heap_is_submseteq with desc.
Qed.

Lemma heap_is_drop h desc x c c' desc' :
  heap_is h desc -> (x, c) :: desc' ⊆+ desc ->
  heap_is (<[x := c']> h) desc'.
Proof.
  intros Hh Hsub. apply heap_is_submseteq with ((x, c') :: desc').
  - apply submseteq_cons. reflexivity.
  - now apply heap_is_replace with desc c.
Qed.

Lemma list_sum_mid {A} (f : A -> nat) l1 a l2 :
  list_sum (map f (l1 ++ a :: l2))
  = f a + list_sum (map f l1) + list_sum (map f l2).
Proof. rewrite map_app, list_sum_app. simpl. lia. Qed.

Lemma lookup_snoc_new {A} (l : list A) (x : A) : (l ++ [x]) !! length l = Some x.
Proof. rewrite lookup_app_r by lia. now rewrite Nat.sub_diag. Qed.

(** ** The submissions of one capture *)

Section Responses.

Fixpoint pauses (r : response) : nat :=
  match r with
  | Settles _ => 0
  | Waits _ r => S (pauses r)
  end.

Lemma exec_settles s fr st :
  exec (external (body_of (Settles s))) fr st = finish fr s st.
Proof. destruct s; reflexivity. Qed.

Lemma exec_waits ms r fr h rm m ts n tr :
  exec (external (body_of (Waits ms r))) fr (State h rm m ts n tr)
  = State (h ++ [Pending [awaiting (body_of r) fr]]) rm m
          (ts ++ [(n + ms, length h)]) n tr.
Proof.
  rewrite (exec_external_wait _ fr ms (body_of r)) by reflexivity.
  cbn [leading body_of map]. now rewrite app_nil_r.
Qed.

End Responses.

Section Submissions.

Context (agg a1 : nat) (rs1 : list reaction).

Definition Relem (e : nat) : reaction :=
  Reaction (Some (HElement agg)) (Some (HElement agg)) (Some e).

(** One call of [addCommand]: [x] is the promise it returned, [e] the
    promise [allSettled] derived from it. *)
Inductive task :=
| TSleep (x e t due : nat) (r : response)  (* waiting for I/O *)
| TWoken (x e : nat) (r : response)        (* about to go on *)
| TDone (x e : nat) (s : settled)          (* settled, not yet counted *)
| TCounted (x : nat) (s : settled).        (* settled and counted *)

Definition task_jobs (tk : task) : list job :=
  match tk with
  | TWoken x _ r => [job_of Fulfilled (awaiting (body_of r) (Frame x false))]
  | TDone _ e s => [job_of s (Relem e)]
  | _ => []
  end.

Definition task_timers (tk : task) : list (nat * nat) :=
  match tk with
  | TSleep _ _ t due _ => [(due, t)]
  | _ => []
  end.

Definition task_desc (tk : task) : list (nat * cell) :=
  match tk with
  | TSleep x e t _ r =>
      [(x, Pending [Relem e]);
       (t, Pending [awaiting (body_of r) (Frame x false)]); (e, Pending [])]
  | TWoken x e _ => [(x, Pending [Relem e]); (e, Pending [])]
  | TDone x e s => [(x, Settled s); (e, Pending [])]
  | TCounted x s => [(x, Settled s)]
  end.

Definition task_weight (tk : task) : nat :=
  match tk with
  | TSleep _ _ _ _ r => 2 * pauses r + 3
  | TWoken _ _ r => 2 * pauses r + 2
  | TDone _ _ _ => 1
  | TCounted _ _ => 0
  end.

Definition uncounted (tk : task) : nat :=
  match tk with
  | TCounted _ _ => 0
  | _ => 1
  end.

Definition task_promise (tk : task) : nat :=
  match tk with
  | TSleep x _ _ _ _ | TWoken x _ _ | TDone x _ _ | TCounted x _ => x
  end.

Lemma turn_woken x e r R st :
  heap_is (heap st) (task_desc (TWoken x e r) ++ R) ->
  exists tk',
    task_promise tk' = x /\ uncounted tk' = 1
    /\ task_weight tk' < task_weight (TWoken x e r)
    /\ let st' := run_job (job_of Fulfilled
                             (awaiting (body_of r) (Frame x false))) st in
       grows st st' (task_jobs tk') (task_timers tk')
       /\ remaining st' = remaining st
       /\ heap_is (heap st') (task_desc tk' ++ R).
Proof.
  destruct st as [h rm m ts n tr]. cbn [heap task_desc app]. intros Hh.
  unfold job_of, awaiting.
  cbn [handler_for on_fulfilled derived run_job call_handler resolve_with].
  destruct r as [s|ms r].
  - exists (TDone x e s). rewrite exec_settles. unfold finish.
    cbn [self observed].
    erewrite settle_pending
      by (cbn [heap]; apply (heap_is_lookup _ _ _ _ Hh); mem).
    unfold push_jobs, store. cbn [heap remaining micro timers now trace map].
    facts; cbn [heap remaining micro timers now trace task_timers
                  task_jobs task_weight task_promise uncounted];
      rewrite ?app_nil_r; try reflexivity; try lia.
    apply heap_is_replace with (1 := Hh) (c := Pending [Relem e]).
    reflexivity.
  - exists (TSleep x e (length h) (n + ms) r). rewrite exec_waits.
    facts; cbn [heap remaining micro timers now trace task_timers
                  task_jobs task_weight task_promise uncounted pauses];
      rewrite ?app_nil_r; try reflexivity; try lia.
    eapply heap_is_submseteq; [|apply heap_is_alloc, Hh].
    cbn [task_desc app]. solve_submseteq.
Qed.

Lemma turn_timer x e t due r R st :
  heap_is (heap st) (task_desc (TSleep x e t due r) ++ R) ->
  let st' := settle t Fulfilled st in
  grows st st' (task_jobs (TWoken x e r)) []
  /\ remaining st' = remaining st
  /\ heap_is (heap st') (task_desc (TWoken x e r) ++ R).
Proof.
  destruct st as [h rm m ts n tr]. cbn [heap task_desc app]. intros Hh.
  erewrite settle_pending
    by (cbn [heap]; apply (heap_is_lookup _ _ _ _ Hh); mem).
  unfold push_jobs, store. cbn [heap remaining micro timers now trace map].
  facts; cbn [heap remaining micro timers now trace task_jobs];
    rewrite ?app_nil_r; try reflexivity.
  apply heap_is_drop with (1 := Hh)
      (c := Pending [awaiting (body_of r) (Frame x false)]).
    solve_submseteq.
Qed.

(** An element function counts its promise; the last one fulfils the
    aggregate. *)
Lemma turn_done x e s n rsagg R st :
  heap_is (heap st) (task_desc (TDone x e s) ++ (agg, Pending rsagg) :: R) ->
  remaining st !! agg = Some (S n) ->
  let st' := run_job (job_of s (Relem e)) st in
  grows st st' (if n =? 0 then map (job_of Fulfilled) rsagg else []) []
  /\ remaining st' = <[agg := n]> (remaining st)
  /\ heap_is (heap st')
       (task_desc (TCounted x s)
        ++ (agg, if n =? 0 then Settled Fulfilled else Pending rsagg) :: R).
Proof.
  destruct st as [h rm m ts k tr]. cbn [heap remaining task_desc app].
  intros Hh Hrem.
  assert (Hjob : job_of s (Relem e)
                 = ReactionJob (Some (HElement agg)) s (Some e))
    by (destruct s; reflexivity).
  rewrite Hjob. cbn [run_job call_handler remaining]. rewrite Hrem.
  replace (default 0 (Some (S n)) - 1) with n by (simpl; lia).
  unfold set_remaining. cbn [heap remaining micro timers now trace].
  destruct (Nat.eqb_spec n 0) as [->|Hn].
  - erewrite settle_pending
      by (cbn [heap]; apply (heap_is_lookup _ _ _ _ Hh); mem).
    unfold push_jobs, store. cbn [heap remaining micro timers now trace].
    assert (Hh' : heap_is (<[agg := Settled Fulfilled]> h)
                    ((agg, Settled Fulfilled) :: (e, Pending [])
                     :: (x, Settled s) :: R)).
    { apply heap_is_replace with (1 := Hh) (c := Pending rsagg).
      solve_submseteq. }
    unfold resolve_with.
    erewrite settle_pending
      by (cbn [heap]; apply (heap_is_lookup _ _ _ _ Hh'); mem).
    unfold push_jobs, store. cbn [heap remaining micro timers now trace map].
    facts; cbn [heap remaining micro timers now trace];
      rewrite ?app_nil_r; try reflexivity.
    apply heap_is_drop with (1 := Hh') (c := Pending []).
    solve_submseteq.
  - unfold resolve_with.
    erewrite settle_pending
      by (cbn [heap]; apply (heap_is_lookup _ _ _ _ Hh); mem).
    unfold push_jobs, store. cbn [heap remaining micro timers now trace map].
    facts; cbn [heap remaining micro timers now trace];
      rewrite ?app_nil_r; try reflexivity.
    apply heap_is_drop with (1 := Hh) (c := Pending []).
    solve_submseteq.
Qed.

(** [captureCommands] goes on after its [await] and returns. *)
Lemma turn_resume R st :
  heap_is (heap st) ((a1, Pending rs1) :: R) ->
  let st' := run_job (job_of Fulfilled (awaiting BReturn (Frame a1 false))) st in
  grows st st' (map (job_of Fulfilled) rs1) []
  /\ remaining st' = remaining st
  /\ heap_is (heap st') ((a1, Settled Fulfilled) :: R).
Proof.
  destruct st as [h rm m ts k tr]. cbn [heap]. intros Hh.
  unfold job_of, awaiting.
  cbn [handler_for on_fulfilled derived run_job call_handler resolve_with
       external exec]. unfold finish. cbn [self observed].
  erewrite settle_pending
    by (cbn [heap]; apply (heap_is_lookup _ _ _ _ Hh); mem).
  unfold push_jobs, store. cbn [heap remaining micro timers now trace].
  facts; cbn [heap remaining micro timers now trace];
    rewrite ?app_nil_r; try reflexivity.
  now apply heap_is_update with (Pending rs1).
Qed.

(** The whole of one [captureCommands]: its calls, and whether it still
    collects their outcomes or is about to go on after its [await]. *)
Inductive stage := Collecting | Resuming.

Definition resume_job : job :=
  job_of Fulfilled (awaiting BReturn (Frame a1 false)).

Definition stage_jobs (sg : stage) : list job :=
  match sg with
  | Collecting => []
  | Resuming => [resume_job]
  end.

Definition agg_cell (sg : stage) : cell :=
  match sg with
  | Collecting => Pending [awaiting BReturn (Frame a1 false)]
  | Resuming => Settled Fulfilled
  end.

Definition cjobs (sg : stage) (tasks : list task) : list job :=
  stage_jobs sg ++ flat_map task_jobs tasks.

Definition ctimers (tasks : list task) : list (nat * nat) :=
  flat_map task_timers tasks.

Definition cdesc (sg : stage) (tasks : list task) : list (nat * cell) :=
  (agg, agg_cell sg) :: (a1, Pending rs1) :: flat_map task_desc tasks.

Definition count (tasks : list task) : nat := list_sum (map uncounted tasks).

Definition cweight (sg : stage) (tasks : list task) : nat :=
  match sg with Collecting => 2 | Resuming => 1 end
  + list_sum (map task_weight tasks).

Definition stage_ok (sg : stage) (tasks : list task) (rm : gmap nat nat)
    : Prop :=
  match sg with
  | Collecting => 0 < count tasks /\ rm !! agg = Some (count tasks)
  | Resuming => count tasks = 0
  end.

(** [xj] are jobs of others in the microtask queue, [F] the promises of
    others. *)
Record CInv (xj : list job) (F : list (nat * cell)) (st : state)
    (sg : stage) (tasks : list task) : Prop := {
  c_micro : micro st ≡ₚ xj ++ cjobs sg tasks;
  c_timers : timers st ≡ₚ ctimers tasks;
  c_heap : heap_is (heap st) (cdesc sg tasks ++ F);
  c_stage : stage_ok sg tasks (remaining st)
}.

Lemma count_zero tasks :
  count tasks = 0 ->
  flat_map task_jobs tasks = [] /\ flat_map task_timers tasks = []
  /\ Forall (fun tk => exists x s, tk = TCounted x s) tasks.
Proof.
  induction tasks as [|tk tasks IH]; [now repeat split|].
  change (count (tk :: tasks)) with (uncounted tk + count tasks).
  intros Hc. destruct tk; simpl in Hc; try lia.
  destruct (IH Hc) as (E1 & E2 & Hall). simpl. rewrite E1, E2.
  repeat split. constructor; eauto.
Qed.

(** A turn of the loop on a job of the capture. *)
Lemma capture_job xj F st sg tasks j js :
  micro st = j :: js -> j ∈ cjobs sg tasks ->
  CInv xj F st sg tasks ->
  let st' := run_job j (State (heap st) (remaining st) js (timers st)
                              (now st) (trace st)) in
  trace st' = trace st
  /\ ((exists sg' tasks',
         CInv xj F st' sg' tasks'
         /\ cweight sg' tasks' < cweight sg tasks
         /\ map task_promise tasks' = map task_promise tasks)
      \/ (sg = Resuming /\ count tasks = 0
          /\ micro st' ≡ₚ xj ++ map (job_of Fulfilled) rs1
          /\ timers st' = timers st
          /\ heap_is (heap st')
               ((a1, Settled Fulfilled) :: (agg, Settled Fulfilled)
                :: flat_map task_desc tasks ++ F))).
Proof.
  destruct st as [h rm m ts n tr]. cbn [heap remaining micro timers now trace].
  intros -> Hj [Hm Hts Hh Hsg]. cbn [heap remaining micro timers] in *.
  set (st0 := State h rm js ts n tr).
  apply elem_of_app in Hj as [Hj|Hj].
  - (* [captureCommands] goes on *)
    destruct sg; [inversion Hj|]. apply list_elem_of_singleton in Hj as ->.
    unfold resume_job in *. cbn [stage_ok] in Hsg. destruct (count_zero _ Hsg) as (Hjobs & Htimers & _).
    unfold cjobs in Hm. rewrite Hjobs in Hm. cbn [stage_jobs app] in Hm.
    rewrite ?app_nil_r in Hm. apply Permutation_cons_app_inv in Hm.
    rewrite app_nil_r in Hm.
    destruct (turn_resume (flat_map task_desc tasks ++ (agg, Settled Fulfilled) :: F) st0)
      as ([Hgm Hgt Hgtr] & Hrm & Hh').
    { eapply heap_is_submseteq; [|exact Hh]. unfold cdesc. cbn [agg_cell app].
      solve_submseteq. }
    split; [exact Hgtr|]. right.
    split; [reflexivity|]. split; [exact Hsg|]. split; [|split].
    + rewrite Hgm. cbn [st0 micro]. now rewrite Hm.
    + rewrite Hgt. cbn [st0 timers]. now rewrite app_nil_r.
    + eapply heap_is_submseteq; [|exact Hh']. solve_submseteq.
  - (* a job of one of the calls *)
    apply list_elem_of_In, in_flat_map in Hj as (tk & Htk & Hj).
    apply in_split in Htk as (l1 & l2 & ->).
    unfold cjobs, cdesc, ctimers in *.
    rewrite !flat_map_app in *. cbn [flat_map] in *.
    destruct tk as [x e t due r|x e r|x e s|x s]; cbn [task_jobs] in Hj;
      try (now inversion Hj);
      destruct Hj as [<-|[]]; cbn [task_jobs task_timers app] in *.
    + (* it goes on after a wait *)
      rewrite !app_assoc in Hm. apply Permutation_cons_app_inv in Hm.
      rewrite <- !app_assoc in Hm.
      destruct (turn_woken x e r
                  ((agg, agg_cell sg) :: (a1, Pending rs1)
                   :: flat_map task_desc l1 ++ flat_map task_desc l2 ++ F) st0)
        as (tk' & Hx & Hunc & Hw & [Hgm Hgt Hgtr] & Hrm & Hh').
      { eapply heap_is_submseteq; [|exact Hh]. cbn [task_desc app].
        solve_submseteq. }
      split; [exact Hgtr|]. left. exists sg, (l1 ++ tk' :: l2).
      split; [split|split].
      * unfold cjobs. rewrite Hgm, flat_map_app. cbn [st0 micro flat_map]. rewrite Hm.
        solve_Permutation.
      * unfold ctimers. rewrite Hgt, flat_map_app. cbn [st0 timers flat_map]. rewrite Hts.
        solve_Permutation.
      * unfold cdesc. rewrite flat_map_app. cbn [flat_map].
        eapply heap_is_submseteq; [|exact Hh']. solve_submseteq.
      * rewrite Hrm. cbn [st0 remaining].
        assert (Hc : count (l1 ++ tk' :: l2)
                     = count (l1 ++ TWoken x e r :: l2)).
        { unfold count. rewrite !list_sum_mid. now rewrite Hunc. }
        destruct sg; cbn [stage_ok] in *; rewrite Hc; exact Hsg.
      * unfold cweight. rewrite !list_sum_mid. lia.
      * rewrite !map_app. cbn [map task_promise]. now rewrite Hx.
    + (* its outcome is counted *)
      rewrite !app_assoc in Hm. apply Permutation_cons_app_inv in Hm.
      rewrite <- !app_assoc in Hm.
      assert (Hc : count (l1 ++ TDone x e s :: l2)
                   = S (count (l1 ++ TCounted x s :: l2))).
      { unfold count. rewrite !list_sum_mid. cbn [uncounted]. lia. }
      destruct sg; cbn [stage_ok] in Hsg; [|lia].
      destruct Hsg as [_ Hrem]. rewrite Hc in Hrem.
      destruct (turn_done x e s (count (l1 ++ TCounted x s :: l2))
                  [awaiting BReturn (Frame a1 false)]
                  ((a1, Pending rs1)
                   :: flat_map task_desc l1 ++ flat_map task_desc l2 ++ F)
                  st0 )
        as ([Hgm Hgt Hgtr] & Hrm & Hh'); [|exact Hrem|].
      { eapply heap_is_submseteq; [|exact Hh]. cbn [task_desc agg_cell app].
        solve_submseteq. }
      split; [exact Hgtr|]. left.
      destruct (Nat.eqb_spec (count (l1 ++ TCounted x s :: l2)) 0) as [Hz|Hz].
      * exists Resuming, (l1 ++ TCounted x s :: l2). split; [split|split].
        -- unfold cjobs. rewrite Hgm, flat_map_app. cbn [st0 micro flat_map map stage_jobs
             task_jobs]. rewrite Hm. unfold resume_job. solve_Permutation.
        -- unfold ctimers. rewrite Hgt, flat_map_app. cbn [st0 timers flat_map task_timers].
           rewrite Hts. solve_Permutation.
        -- unfold cdesc. rewrite flat_map_app. cbn [flat_map agg_cell].
           eapply heap_is_submseteq; [|exact Hh']. solve_submseteq.
        -- exact Hz.
        -- unfold cweight. rewrite !list_sum_mid. cbn [task_weight]. lia.
        -- rewrite !map_app. reflexivity.
      * exists Collecting, (l1 ++ TCounted x s :: l2). split; [split|split].
        -- unfold cjobs. rewrite Hgm, flat_map_app. cbn [st0 micro flat_map map stage_jobs
             task_jobs]. rewrite Hm. solve_Permutation.
        -- unfold ctimers. rewrite Hgt, flat_map_app. cbn [st0 timers flat_map task_timers].
           rewrite Hts. solve_Permutation.
        -- unfold cdesc. rewrite flat_map_app. cbn [flat_map agg_cell].
           eapply heap_is_submseteq; [|exact Hh']. solve_submseteq.
        -- split; [lia|]. rewrite Hrm. apply lookup_insert_eq.
        -- unfold cweight. rewrite !list_sum_mid. cbn [task_weight]. lia.
        -- rewrite !map_app. reflexivity.
Qed.

(** A turn of the loop on a timer of the capture. *)
Lemma capture_timer xj F st sg tasks x rest :
  timers st ≡ₚ x :: rest ->
  CInv xj F st sg tasks ->
  let st' := settle x.2 Fulfilled
               (State (heap st) (remaining st) (micro st) rest
                      (Nat.max (now st) x.1) (trace st)) in
  trace st' = trace st
  /\ exists tasks',
       CInv xj F st' sg tasks'
       /\ cweight sg tasks' < cweight sg tasks
       /\ map task_promise tasks' = map task_promise tasks.
Proof.
  destruct st as [h rm m ts n tr]. cbn [heap remaining micro timers now trace].
  intros Hx [Hm Hts Hh Hsg]. cbn [heap remaining micro timers] in *.
  set (st0 := State h rm m rest (Nat.max n x.1) tr).
  assert (Hin : x ∈ ctimers tasks).
  { rewrite <- Hts, Hx. left. }
  apply list_elem_of_In, in_flat_map in Hin as (tk & Htk & Hin).
  apply in_split in Htk as (l1 & l2 & ->).
  unfold cjobs, cdesc, ctimers in *.
  rewrite !flat_map_app in *. cbn [flat_map] in *.
  destruct tk as [y e t due r|y e r|y e s|y s]; cbn [task_timers] in Hin;
    try (now inversion Hin);
    destruct Hin as [<-|[]]; cbn [task_jobs task_timers app snd fst] in *.
  rewrite Hx in Hts. apply Permutation_cons_app_inv in Hts.
  destruct (turn_timer y e t due r
              ((agg, agg_cell sg) :: (a1, Pending rs1)
               :: flat_map task_desc l1 ++ flat_map task_desc l2 ++ F) st0)
    as ([Hgm Hgt Hgtr] & Hrm & Hh').
  { eapply heap_is_submseteq; [|exact Hh]. cbn [task_desc app].
    solve_submseteq. }
  split; [exact Hgtr|]. exists (l1 ++ TWoken y e r :: l2).
  split; [split|split].
  - unfold cjobs. rewrite Hgm, flat_map_app. cbn [st0 micro flat_map].
    rewrite Hm. solve_Permutation.
  - unfold ctimers. rewrite Hgt, flat_map_app.
    cbn [st0 timers flat_map task_timers]. rewrite Hts. solve_Permutation.
  - unfold cdesc. rewrite flat_map_app. cbn [flat_map].
    eapply heap_is_submseteq; [|exact Hh']. solve_submseteq.
  - rewrite Hrm. cbn [st0 remaining].
    assert (Hc : count (l1 ++ TWoken y e r :: l2)
                 = count (l1 ++ TSleep y e t due r :: l2)).
    { unfold count. rewrite !list_sum_mid. reflexivity. }
    destruct sg; cbn [stage_ok] in *; rewrite Hc; exact Hsg.
  - unfold cweight. rewrite !list_sum_mid. cbn [task_weight]. lia.
  - rewrite !map_app. reflexivity.
Qed.

(** *** How a capture starts *)

(** A call of [addCommand] that has returned, before [allSettled] has
    seen its promise. *)
Inductive called :=
| CSleep (x t due : nat) (r : response)
| CDone (x : nat) (s : settled).

Definition called_desc (c : called) : list (nat * cell) :=
  match c with
  | CSleep x t _ r =>
      [(x, Pending []); (t, Pending [awaiting (body_of r) (Frame x false)])]
  | CDone x s => [(x, Settled s)]
  end.

Definition called_timers (c : called) : list (nat * nat) :=
  match c with
  | CSleep _ t due _ => [(due, t)]
  | CDone _ _ => []
  end.

Definition called_promise (c : called) : nat :=
  match c with
  | CSleep x _ _ _ | CDone x _ => x
  end.

Definition called_weight (c : called) : nat :=
  match c with
  | CSleep _ _ _ r => 2 * pauses r + 3
  | CDone _ _ => 1
  end.

Definition to_task (e : nat) (c : called) : task :=
  match c with
  | CSleep x t due r => TSleep x e t due r
  | CDone x s => TDone x e s
  end.

(** What [allSettled] does with one promise. *)
Definition register (st : state) (p : nat) : state :=
  let st := set_remaining agg (default 0 (remaining st !! agg) + 1) st in
  snd (promise_then p (Some (HElement agg)) (Some (HElement agg)) st).

Lemma register_all cs : forall st D k,
  heap_is (heap st) (flat_map called_desc cs ++ D) ->
  remaining st !! agg = Some k ->
  let st' := fold_left register (map called_promise cs) st in
  exists tasks,
    grows st st' (flat_map task_jobs tasks) []
    /\ remaining st' !! agg = Some (k + length cs)
    /\ heap_is (heap st') (flat_map task_desc tasks ++ D)
    /\ flat_map task_timers tasks = flat_map called_timers cs
    /\ map task_promise tasks = map called_promise cs
    /\ map task_weight tasks = map called_weight cs
    /\ count tasks = length cs.
Proof.
  induction cs as [|c cs IH]; intros st D k Hh Hrem.
  - exists []. cbn [fold_left map flat_map length app].
    facts; rewrite ?app_nil_r, ?Nat.add_0_r; try reflexivity; assumption.
  - cbn [map fold_left]. cbn [flat_map] in Hh.
    set (st1 := register st (called_promise c)).
    assert (Hst1 :
      grows st st1 (task_jobs (to_task (length (heap st)) c)) []
      /\ remaining st1 !! agg = Some (k + 1)
      /\ heap_is (heap st1)
           (flat_map called_desc cs
            ++ task_desc (to_task (length (heap st)) c) ++ D)).
    { subst st1. unfold register. rewrite Hrem.
      destruct st as [h rm m ts n tr].
      cbn [heap remaining default] in *.
      unfold set_remaining, promise_then, alloc.
      cbn [heap remaining micro timers now trace snd].
      pose proof (heap_is_alloc h _ (Pending []) Hh) as Hh1.
      destruct c as [x t due r|x s]; cbn [called_promise called_desc app] in *.
      + erewrite perform_then_pending
          by (cbn [heap]; apply (heap_is_lookup _ _ _ _ Hh1); mem).
        unfold store. cbn [heap remaining micro timers now trace].
        facts; cbn [heap remaining micro timers now trace to_task task_jobs];
          rewrite ?app_nil_r; try reflexivity.
        * apply lookup_insert_eq.
        * eapply heap_is_submseteq;
            [|apply heap_is_replace with (1 := Hh1) (c := Pending [])
                (c' := Pending [Relem (length h)])
                (others := (length h, Pending [])
                           :: (t, Pending [awaiting (body_of r) (Frame x false)])
                           :: flat_map called_desc cs ++ D)];
            cbn [task_desc app]; solve_submseteq.
      + erewrite perform_then_settled
          by (cbn [heap]; apply (heap_is_lookup _ _ _ _ Hh1); mem).
        unfold push_job. cbn [heap remaining micro timers now trace].
        facts; cbn [heap remaining micro timers now trace to_task task_jobs];
          rewrite ?app_nil_r; try reflexivity.
        * apply lookup_insert_eq.
        * eapply heap_is_submseteq; [|exact Hh1].
          cbn [task_desc app]. solve_submseteq. }
    destruct Hst1 as ([Hm1 Ht1 Htr1] & Hrem1 & Hh1).
    destruct (IH st1 _ _ Hh1 Hrem1)
      as (tasks & [Hm2 Ht2 Htr2] & Hrem2 & Hh2 & Htm & Hpr & Hw & Hc).
    exists (to_task (length (heap st)) c :: tasks).
    cbn [flat_map map length].
    facts.
    + rewrite Hm2, Hm1. now rewrite app_assoc.
    + rewrite Ht2, Ht1. now rewrite !app_nil_r.
    + now rewrite Htr2, Htr1.
    + rewrite Hrem2. f_equal. lia.
    + eapply heap_is_submseteq; [|exact Hh2]. solve_submseteq.
    + rewrite Htm. now destruct c.
    + rewrite Hpr. now destruct c.
    + rewrite Hw. now destruct c.
    + change (count (?a :: ?l)) with (uncounted a + count l).
      rewrite Hc. now destruct c.
Qed.

End Submissions.

Section Starting.

Lemma invoke_each_cons f fs st :
  invoke_each exec (f :: fs) st
  = (length (heap st)
       :: (invoke_each exec fs
             (exec f (Frame (length (heap st)) false)
                (snd (alloc (Pending []) st)))).1,
     (invoke_each exec fs
        (exec f (Frame (length (heap st)) false)
           (snd (alloc (Pending []) st)))).2).
Proof.
  cbn [invoke_each]. unfold alloc. cbn [snd].
  now destruct (invoke_each exec fs _).
Qed.

(** One call of [addCommand]. *)
Lemma addCommand_called client cmd opts st D :
  heap_is (heap st) D ->
  let st' := exec (addCommand client cmd [] opts)
               (Frame (length (heap st)) false)
               (snd (alloc (Pending []) st)) in
  exists c,
    called_promise c = length (heap st)
    /\ micro st' = micro st
    /\ timers st' = timers st ++ called_timers c
    /\ trace st' = trace st ++ [Submit cmd [] opts]
    /\ remaining st' = remaining st
    /\ heap_is (heap st') (called_desc c ++ D)
    /\ called_weight c = 2 * pauses (client cmd [] opts) + 1.
Proof.
  destruct st as [h rm m ts n tr]. cbn [heap]. intros Hh.
  unfold addCommand, alloc. cbn [exec snd heap remaining micro timers now trace].
  unfold log. cbn [heap remaining micro timers now trace].
  destruct (client cmd [] opts) as [s|ms r].
  - exists (CDone (length h) s). rewrite exec_settles. unfold finish.
    cbn [self observed].
    erewrite settle_pending by (cbn [heap]; apply lookup_snoc_new).
    unfold push_jobs, store. cbn [heap remaining micro timers now trace map].
    rewrite insert_snoc.
    facts; cbn [heap remaining micro timers now trace called_timers
                  called_promise called_weight pauses];
      rewrite ?app_nil_r; try reflexivity.
    now apply heap_is_alloc.
  - exists (CSleep (length h) (length (h ++ [Pending []])) (n + ms) r).
    rewrite exec_waits.
    facts; cbn [heap remaining micro timers now trace called_timers
                  called_promise called_weight pauses];
      rewrite ?app_nil_r; try reflexivity; try lia.
    eapply heap_is_submseteq;
      [|apply heap_is_alloc, heap_is_alloc, Hh].
    cbn [called_desc app]. solve_submseteq.
Qed.

(** The calls of [commands.map(cmd => client.addCommand(cmd, '', options))]:
    one per command, in order, made at once. *)
Lemma invoke_submissions client opts cmds : forall st D,
  heap_is (heap st) D ->
  let r := invoke_each exec
             (map (fun cmd => addCommand client cmd [] opts) cmds) st in
  exists cs,
    r.1 = map called_promise cs
    /\ micro r.2 = micro st
    /\ timers r.2 = timers st ++ flat_map called_timers cs
    /\ trace r.2 = trace st ++ map (fun cmd => Submit cmd [] opts) cmds
    /\ remaining r.2 = remaining st
    /\ heap_is (heap r.2) (flat_map called_desc cs ++ D)
    /\ map called_weight cs
       = map (fun cmd => 2 * pauses (client cmd [] opts) + 1) cmds.
Proof.
  induction cmds as [|cmd cmds IH]; intros st D Hh.
  - exists []. cbn [map invoke_each fst snd flat_map app].
    facts; rewrite ?app_nil_r; try reflexivity; assumption.
  - cbn [map]. rewrite invoke_each_cons. cbn [fst snd].
    destruct (addCommand_called client cmd opts st D Hh)
      as (c & Hp & Hm1 & Ht1 & Htr1 & Hrm1 & Hh1 & Hw1).
    destruct (IH _ _ Hh1) as (cs & Hps & Hm2 & Ht2 & Htr2 & Hrm2 & Hh2 & Hw2).
    exists (c :: cs). cbn [map flat_map].
    facts.
    + now rewrite Hps, Hp.
    + now rewrite Hm2, Hm1.
    + rewrite Ht2, Ht1. now rewrite app_assoc.
    + rewrite Htr2, Htr1. now rewrite <- app_assoc.
    + now rewrite Hrm2, Hrm1.
    + eapply heap_is_submseteq; [|exact Hh2]. solve_submseteq.
    + now rewrite Hw2, Hw1.
Qed.

Lemma all_settled_unfold ps st :
  all_settled ps st
  = let agg := length (heap st) in
    let st2 := fold_left (register agg) ps
                 (set_remaining agg 1 (snd (alloc (Pending []) st))) in
    let n := default 0 (remaining st2 !! agg) - 1 in
    (agg, if n =? 0 then settle agg Fulfilled (set_remaining agg n st2)
          else set_remaining agg n st2).
Proof. reflexivity. Qed.

(** [captureCommands] up to its [await]: the calls are made, and
    [allSettled] waits for their promises, or has nothing to wait for. *)
Lemma captureCommands_starts client cmds opts a1 F st :
  heap_is (heap st) ((a1, Pending []) :: F) ->
  let st' := exec (captureCommands client cmds opts) (Frame a1 false) st in
  exists agg sg tasks,
    micro st' = micro st ++ cjobs agg a1 sg tasks
    /\ timers st' = timers st ++ ctimers tasks
    /\ trace st' = trace st ++ map (fun cmd => Submit cmd [] opts) cmds
    /\ heap_is (heap st') (cdesc agg a1 [] sg tasks ++ F)
    /\ stage_ok agg sg tasks (remaining st')
    /\ map task_promise tasks
       = (invoke_each exec
            (map (fun cmd => addCommand client cmd [] opts) cmds) st).1
    /\ map (task_weight) tasks
       = map (fun cmd => 2 * pauses (client cmd [] opts) + 1) cmds.
Proof.
  intros Hh. unfold captureCommands. cbn [exec].
  destruct (invoke_submissions client opts cmds st _ Hh)
    as (cs & Hps & Hm1 & Ht1 & Htr1 & Hrm1 & Hh1 & Hw1).
  destruct (invoke_each exec _ st) as [ps st1]. cbn [fst snd] in *. subst ps.
  rewrite all_settled_unfold. cbn zeta.
  set (agg := length (heap st1)).
  set (st1' := set_remaining agg 1 (snd (alloc (Pending []) st1))).
  destruct (register_all agg cs st1'
              ((agg, Pending []) :: (a1, Pending []) :: F) 1)
    as (tasks & [Hm2 Ht2 Htr2] & Hrem2 & Hh2 & Htm & Hpr & Hw & Hc).
  { subst st1' agg. destruct st1 as [h1 rm1 m1 ts1 n1 tr1]. cbn [heap] in *.
    eapply heap_is_submseteq; [|apply heap_is_alloc, Hh1]. solve_submseteq. }
  { subst st1'. destruct st1. apply lookup_insert_eq. }
  cbn zeta in *.
  set (st2 := fold_left (register agg) (map called_promise cs) st1') in *.
  rewrite Hrem2.
  replace (default 0 (Some (1 + length cs)) - 1) with (length cs)
    by (simpl; lia).
  assert (Hbase : micro st1' = micro st /\ timers st1' = timers st ++ flat_map called_timers cs
                  /\ trace st1' = trace st ++ map (fun cmd => Submit cmd [] opts) cmds).
  { subst st1'. destruct st1. cbn in *. now subst. }
  destruct Hbase as (Hb1 & Hb2 & Hb3).
  rewrite Hb1 in Hm2. rewrite Hb2 in Ht2. rewrite Hb3 in Htr2.
  rewrite app_nil_r in Ht2.
  exists agg. destruct st2 as [h2 rm2 m2 ts2 n2 tr2].
  cbn [heap remaining micro timers now trace] in *. subst m2 ts2 tr2.
  unfold set_remaining, await. cbn [heap remaining micro timers now trace].
  destruct (Nat.eqb_spec (length cs) 0) as [Hz|Hz].
  - (* no command at all *)
    assert (tasks = []) as ->.
    { apply length_zero_iff_nil. rewrite <- (length_map task_promise), Hpr.
      now rewrite length_map. }
    cbn [flat_map app] in *.
    erewrite (settle_pending agg)
      by (cbn [heap]; apply (heap_is_lookup _ _ _ _ Hh2); mem).
    unfold push_jobs, store. cbn [heap remaining micro timers now trace map].
    erewrite perform_then_settled.
    2:{ cbn [heap]. apply list_lookup_insert_eq.
        eapply heap_is_fresh; [exact Hh2|mem]. }
    unfold push_job. cbn [heap remaining micro timers now trace].
    exists Resuming, []. unfold cjobs, ctimers, cdesc.
    cbn [stage_jobs flat_map agg_cell app stage_ok].
    facts; rewrite ?app_nil_r; try reflexivity.
    + rewrite <- Htm. apply app_nil_r.
    + apply heap_is_update with (Pending []). exact Hh2.
    + exact Hpr.
    + now rewrite <- Hw1, <- Hw.
  - (* [allSettled] waits *)
    erewrite perform_then_pending
      by (cbn [heap]; apply (heap_is_lookup _ _ _ _ Hh2); mem).
    unfold store. cbn [heap remaining micro timers now trace].
    exists Collecting, tasks. unfold cjobs, ctimers, cdesc.
    cbn [stage_jobs agg_cell app stage_ok].
    facts; rewrite ?app_nil_r; try reflexivity.
    + now rewrite Htm.
    + eapply heap_is_submseteq;
        [|apply heap_is_replace with (1 := Hh2) (c := Pending [])
            (c' := Pending [awaiting BReturn (Frame a1 false)])
            (others := (a1, Pending []) :: flat_map (task_desc agg) tasks ++ F)];
        solve_submseteq.
    + lia.
    + rewrite Hc. apply lookup_insert_eq.
    + exact Hpr.
    + now rewrite Hw, Hw1.
Qed.

End Starting.

(** ** The queue at every moment *)

Section QueueInvariant.

Context `{TimerPolicy}.

Abbreviation entry := (queued_operation * nat * nat)%type (only parsing).

Definition Rignore (c : nat) : reaction :=
  Reaction None (Some HIgnore) (Some c).
Definition Rnext (op : queued_operation) (p : nat) : reaction :=
  Reaction (Some (HOperation (operation_of op))) None (Some p).
Definition Radopt (p d : nat) : reaction :=
  Reaction (Some (HResolve p)) (Some (HReject p)) (Some d).

(** The operations not yet started, with the two promises [enqueue] made
    for each, hanging from the promise [c]. *)
Fixpoint chain_desc (c : nat) (pend : list entry) : list (nat * cell) :=
  match pend with
  | [] => [(c, Pending [])]
  | (op, p, c') :: rest =>
      (c, Pending [Rnext op p]) :: (p, Pending [Rignore c'])
      :: chain_desc c' rest
  end.

Fixpoint chain_tail (c : nat) (pend : list entry) : nat :=
  match pend with
  | [] => c
  | (_, _, c') :: rest => chain_tail c' rest
  end.

Definition pending_ops (pend : list entry) : list queued_operation :=
  map (fun e : entry => e.1.1) pend.

(** Where the operation at the head of the queue stands. *)
Inductive phase :=
| Scheduled (op : queued_operation)
| AdoptingSuspended (a t due : nat) (k : body)
| AdoptingFinished (a : nat) (s : settled)
| Running (a d t due : nat) (k : body)
| WokenUnadopted (a : nat) (k : body)
| Woken (a d : nat) (k : body)
| Capturing (a : nat) (adopted : option nat) (agg a1 : nat) (sg : stage)
    (tasks : list task)
| Settling (d : nat) (s : settled)
| Passing (s : settled).

(** While a capture runs, the promise [a] of its operation may or may not
    have been adopted yet by the promise that [then] made. *)
Definition adopt_jobs (p0 a : nat) (adopted : option nat) : list job :=
  match adopted with
  | None => [ThenableJob p0 a]
  | Some _ => []
  end.

Definition adopt_desc (p0 a : nat) (adopted : option nat)
    : list (nat * cell) :=
  match adopted with
  | None => [(a, Pending [])]
  | Some d => [(a, Pending [Radopt p0 d]); (d, Pending [])]
  end.

Definition phase_micro (p0 c0 : nat) (ph : phase) : list job :=
  match ph with
  | Scheduled op => [job_of Fulfilled (Rnext op p0)]
  | AdoptingSuspended a _ _ _ | AdoptingFinished a _ => [ThenableJob p0 a]
  | Running _ _ _ _ _ => []
  | WokenUnadopted a k =>
      [ThenableJob p0 a; job_of Fulfilled (awaiting k (Frame a true))]
  | Woken a _ k => [job_of Fulfilled (awaiting k (Frame a true))]
  | Capturing a adopted agg a1 sg tasks =>
      adopt_jobs p0 a adopted ++ cjobs agg a1 sg tasks
  | Settling d s => [job_of s (Radopt p0 d)]
  | Passing s => [job_of s (Rignore c0)]
  end.

Definition phase_timers (ph : phase) : list (nat * nat) :=
  match ph with
  | AdoptingSuspended _ t due _ | Running _ _ t due _ => [(due, t)]
  | Capturing _ _ _ _ _ tasks => ctimers tasks
  | _ => []
  end.

Definition phase_desc (p0 c0 : nat) (ph : phase) : list (nat * cell) :=
  match ph with
  | Scheduled _ => [(p0, Pending [Rignore c0])]
  | AdoptingSuspended a t _ k =>
      [(a, Pending []); (t, Pending [awaiting k (Frame a true)]);
       (p0, Pending [Rignore c0])]
  | AdoptingFinished a s => [(a, Settled s); (p0, Pending [Rignore c0])]
  | Running a d t _ k =>
      [(a, Pending [Radopt p0 d]); (t, Pending [awaiting k (Frame a true)]);
       (d, Pending []); (p0, Pending [Rignore c0])]
  | WokenUnadopted a _ => [(a, Pending []); (p0, Pending [Rignore c0])]
  | Woken a d _ =>
      [(a, Pending [Radopt p0 d]); (d, Pending []);
       (p0, Pending [Rignore c0])]
  | Capturing a adopted agg a1 sg tasks =>
      cdesc agg a1 [awaiting BReturn (Frame a true)] sg tasks
      ++ adopt_desc p0 a adopted ++ [(p0, Pending [Rignore c0])]
  | Settling d _ => [(d, Pending []); (p0, Pending [Rignore c0])]
  | Passing _ => []
  end.

Definition phase_future (ph : phase) : list event :=
  match ph with
  | Scheduled op => op_trace op
  | AdoptingSuspended _ _ _ k | Running _ _ _ _ k | WokenUnadopted _ k
  | Woken _ _ k =>
      tail_trace k
  | Capturing _ _ _ _ _ _ => [OpEnd Fulfilled]
  | _ => []
  end.

Definition phase_remaining (ph : phase) (rm : gmap nat nat) : Prop :=
  match ph with
  | Capturing _ _ agg _ sg tasks => stage_ok agg sg tasks rm
  | _ => True
  end.

Definition op_weight (op : queued_operation) : nat :=
  match op with
  | ExtAsync b => 2 * waits b + 6
  | ExtThrow _ => 6
  | Capture None _ => 6
  | Capture (Some client) result =>
      list_sum (map (fun cmd => 2 * pauses (client cmd [] (options result)) + 1)
                    (commands result)) + 10
  end.

Definition phase_weight (ph : phase) : nat :=
  match ph with
  | Scheduled op => op_weight op
  | AdoptingSuspended _ _ _ k => 2 * waits k + 5
  | AdoptingFinished _ _ => 3
  | Running _ _ _ _ k => 2 * waits k + 4
  | WokenUnadopted _ k => 2 * waits k + 6
  | Woken _ _ k => 2 * waits k + 3
  | Capturing _ adopted _ _ sg tasks =>
      cweight sg tasks + match adopted with None => 7 | Some _ => 3 end
  | Settling _ _ => 2
  | Passing _ => 1
  end.

Inductive astate :=
| Idle (c : nat)
| Busy (ph : phase) (p0 c0 : nat) (pend : list entry).

Definition amicro (A : astate) : list job :=
  match A with
  | Idle _ => []
  | Busy ph p0 c0 _ => phase_micro p0 c0 ph
  end.

Definition atimers (A : astate) : list (nat * nat) :=
  match A with
  | Idle _ => []
  | Busy ph _ _ _ => phase_timers ph
  end.

Definition adesc (A : astate) : list (nat * cell) :=
  match A with
  | Idle c => [(c, Settled Fulfilled)]
  | Busy ph p0 c0 pend => phase_desc p0 c0 ph ++ chain_desc c0 pend
  end.

Definition atail (A : astate) : nat :=
  match A with
  | Idle c => c
  | Busy _ _ c0 pend => chain_tail c0 pend
  end.

Definition afuture (A : astate) : list event :=
  match A with
  | Idle _ => []
  | Busy ph _ _ pend => phase_future ph ++ flat_map op_trace (pending_ops pend)
  end.

Definition aremaining (A : astate) (rm : gmap nat nat) : Prop :=
  match A with
  | Idle _ => True
  | Busy ph _ _ _ => phase_remaining ph rm
  end.

Definition aweight (A : astate) : nat :=
  match A with
  | Idle _ => 0
  | Busy ph _ _ pend =>
      phase_weight ph + list_sum (map op_weight (pending_ops pend))
  end.

(** The state [st] of the loop, with the queue [q], is as [A] tells, after
    the operations [ops] have been enqueued. *)
Record Inv (ops : list queued_operation) (q : OperationQueue) (st : state)
    (A : astate) : Prop := {
  inv_micro : micro st ≡ₚ amicro A;
  inv_timers : timers st ≡ₚ atimers A;
  inv_heap : heap_is (heap st) (adesc A);
  inv_remaining : aremaining A (remaining st);
  inv_tail : queue q = atail A;
  inv_trace : trace st ++ afuture A = flat_map op_trace ops
}.

Lemma Inv_initial :
  Inv [] (new_OperationQueue initial).1 (new_OperationQueue initial).2 (Idle 0).
Proof.
  split; try reflexivity; try exact I. split.
  - repeat constructor. intros Hin. inversion Hin.
  - intros x c [= -> ->]%list_elem_of_singleton. reflexivity.
Qed.

Lemma chain_desc_snoc c pend op p c' :
  exists front,
    chain_desc c pend = front ++ [(chain_tail c pend, Pending [])]
    /\ chain_desc c (pend ++ [(op, p, c')])
       = front ++ [(chain_tail c pend, Pending [Rnext op p]);
                   (p, Pending [Rignore c']); (c', Pending [])].
Proof.
  revert c. induction pend as [|[[op1 p1] c1] rest IH]; intros c.
  - exists []. split; reflexivity.
  - destruct (IH c1) as (front & E1 & E2).
    exists ((c, Pending [Rnext op1 p1]) :: (p1, Pending [Rignore c1]) :: front).
    simpl. rewrite E1, E2. split; reflexivity.
Qed.

Lemma chain_tail_snoc c pend op p c' :
  chain_tail c (pend ++ [(op, p, c')]) = c'.
Proof.
  revert c. induction pend as [|[[op1 p1] c1] rest IH]; intros c; simpl; auto.
Qed.

Lemma chain_tail_in c pend : (chain_tail c pend, Pending []) ∈ chain_desc c pend.
Proof.
  revert c. induction pend as [|[[op1 p1] c1] rest IH]; intros c; simpl.
  - left.
  - right. right. apply IH.
Qed.



(** The state after one more [enqueue]. *)
Definition aenqueue (op : queued_operation) (n : nat) (A : astate) : astate :=
  match A with
  | Idle _ => Busy (Scheduled op) n (S n) []
  | Busy ph p0 c0 pend => Busy ph p0 c0 (pend ++ [(op, n, S n)])
  end.

Lemma Inv_enqueue ops q st A op :
  Inv ops q st A ->
  Inv (ops ++ [op]) (enqueue q (operation_of op) st).1
      (enqueue q (operation_of op) st).2 (aenqueue op (length (heap st)) A).
Proof.
  destruct st as [h r m ts n tr]. intros [Hm Hts Hh Hrm Hq Htr].
  cbn [heap remaining micro timers trace] in *.
  unfold enqueue, promise_then, alloc. cbn [heap remaining micro timers now trace].
  pose proof (heap_is_alloc h _ (Pending []) Hh) as Hh1.
  destruct A as [c|ph p0 c0 pend]; cbn [adesc atail aenqueue] in *.
  - (* the queue is idle: the operation is scheduled at once *)
    erewrite perform_then_settled.
    2:{ cbn [heap]. apply (heap_is_lookup _ _ _ _ Hh1). rewrite Hq.
        right. left. }
    unfold push_job. cbn [heap remaining micro timers now trace job_of
      handler_for on_fulfilled derived length].
    erewrite perform_then_pending.
    2:{ cbn [heap]. rewrite lookup_app_l by (rewrite length_app; simpl; lia).
        apply lookup_snoc_new. }
    unfold store. cbn [heap remaining micro timers now trace fst snd].
    rewrite length_app. cbn [length]. rewrite Nat.add_1_r.
    apply Permutation_nil_r in Hm. subst m.
    split; cbn [heap remaining micro timers trace amicro atimers adesc atail
                afuture aremaining phase_remaining
                phase_micro phase_timers phase_desc phase_future chain_desc
                chain_tail queue pending_ops map flat_map].
    + reflexivity.
    + exact Hts.
    + pose proof (heap_is_alloc _ _ (Pending []) Hh1) as Hh2.
      rewrite length_app in Hh2. cbn [length] in Hh2.
      rewrite Nat.add_1_r in Hh2.
      eapply heap_is_submseteq;
        [|apply (heap_is_update _ [(S (length h), Pending [])] (length h)
                   (Pending []) (Pending [Rignore (S (length h))]));
          eapply heap_is_submseteq; [|exact Hh2]];
        solve_submseteq.
    + exact I.
    + reflexivity.
    + rewrite flat_map_app. simpl in *. rewrite app_nil_r in *.
      now rewrite Htr.
  - (* the queue is busy: the operation joins the chain *)
    destruct (chain_desc_snoc c0 pend op (length h) (S (length h)))
      as (front & E1 & E2).
    erewrite perform_then_pending.
    2:{ cbn [heap]. apply (heap_is_lookup _ _ _ _ Hh1). rewrite Hq.
        right. apply elem_of_app. right. apply chain_tail_in. }
    unfold store. cbn [heap remaining micro timers now trace length app].
    erewrite perform_then_pending.
    2:{ cbn [heap]. rewrite lookup_app_l
          by (rewrite length_insert, length_app; simpl; lia).
        rewrite list_lookup_insert_ne.
        - apply lookup_snoc_new.
        - intros E. rewrite E in Hq.
          pose proof (heap_is_fresh h _ _ _ Hh
                        (proj2 (elem_of_app _ _ _)
                           (or_intror (chain_tail_in c0 pend)))). lia. }
    unfold store. cbn [heap remaining micro timers now trace fst snd].
    rewrite length_insert, length_app. cbn [length]. rewrite Nat.add_1_r.
    split; cbn [heap remaining micro timers trace amicro atimers adesc atail
                afuture aremaining queue].
    + exact Hm.
    + exact Hts.
    + rewrite E2, Hq. rewrite E1 in Hh1.
      set (tl := chain_tail c0 pend) in *.
      set (P := phase_desc p0 c0 ph) in *.
      assert (Hh2 : heap_is (<[tl := Pending [Rnext op (length h)]]>
                               (h ++ [Pending []]))
                      ((tl, Pending [Rnext op (length h)])
                       :: (length h, Pending []) :: P ++ front)).
      { apply (heap_is_update _ _ tl (Pending [])).
        eapply heap_is_submseteq; [|exact Hh1]. solve_submseteq. }
      pose proof (heap_is_alloc _ _ (Pending []) Hh2) as Hh3.
      rewrite length_insert, length_app in Hh3. cbn [length] in Hh3.
      rewrite Nat.add_1_r in Hh3.
      eapply heap_is_submseteq;
        [|apply (heap_is_update _
                   ((S (length h), Pending [])
                    :: (tl, Pending [Rnext op (length h)]) :: P ++ front)
                   (length h) (Pending [])
                   (Pending [Rignore (S (length h))]));
          eapply heap_is_submseteq; [|exact Hh3]];
        solve_submseteq.
    + exact Hrm.
    + now rewrite chain_tail_snoc.
    + cbn [afuture] in Htr. unfold pending_ops in *.
      rewrite map_app, !flat_map_app.
      cbn [map flat_map fst]. rewrite app_nil_r, <- Htr, <- !app_assoc.
      reflexivity.
Qed.

Ltac mem ::=
  cbn [phase_desc adesc app chain_desc adopt_desc cdesc];
  rewrite <- ?app_assoc; cbn [app];
  repeat first [apply list_elem_of_here | apply list_elem_of_further
               | apply elem_of_app; right].

Ltac fields :=
  cbn [heap remaining micro timers now trace self observed
       amicro atimers adesc atail afuture aweight aremaining
       phase_micro phase_timers phase_desc phase_future phase_weight
       phase_remaining op_weight app map length fst snd] in *.

Ltac call :=
  unfold job_of, Rnext, Radopt, Rignore, awaiting;
  cbn [handler_for on_fulfilled on_rejected derived run_job call_handler
       resolve_with operation_of].

Lemma pick_one x :
  pick [x] = Some (x, []).
Proof.
  destruct (pick_cons x []) as (y & rest & E & HP).
  apply Permutation_singleton_l in HP. injection HP as <- <-. exact E.
Qed.

(** The loop takes a turn that brings the queue nearer to rest. *)
Definition Next (ops : list queued_operation) (q : OperationQueue)
    (st : state) (A : astate) : Prop :=
  exists st' A',
    step st = Some st' /\ Inv ops q st' A' /\ aweight A' < aweight A.

Ltac next A' :=
  eexists _, A'; split; [reflexivity|];
  split; [split|]; fields; try reflexivity; try assumption; try exact I;
  try lia.

(** An [async] operation is invoked. *)
Lemma Next_async ops q st op b p0 c0 pend :
  operation_of op = AsyncFn (external b) ->
  op_trace op = OpStart :: tail_trace b ->
  op_weight op = 2 * waits b + 6 ->
  Inv ops q st (Busy (Scheduled op) p0 c0 pend) ->
  Next ops q st (Busy (Scheduled op) p0 c0 pend).
Proof.
  intros Hop Hot How.
  destruct st as [h r m ts n tr]. intros [Hm Hts Hh Hrm Hq Htr].
  pose proof (heap_is_alloc h _ (Pending []) Hh) as Hh1.
  unfold Next. cbn [aweight phase_weight]. rewrite How.
  fields. exact_lists. subst m ts. unfold step. cbn [micro timers].
  call. rewrite Hop. cbn [call_handler].
  unfold log, alloc. fields. rewrite Hot in Htr.
  destruct (after_leading_cases b) as [E|(ms & k & E)].
  - erewrite exec_external_end; [|tauto|apply lookup_snoc_new].
    rewrite insert_snoc. unfold resolve_with, push_job. fields.
    next (Busy (AdoptingFinished (length h) (outcome b)) p0 c0 pend).
    + now apply heap_is_alloc.
    + rewrite <- Htr. rewrite tail_trace_end by tauto. same_trace.
  - rewrite (exec_external_wait _ _ _ _ _ _ _ _ _ _ E).
    unfold resolve_with, push_job. fields.
    next (Busy (AdoptingSuspended (length h) (length (h ++ [Pending []]))
                  (n + ms) k) p0 c0 pend).
    + eapply heap_is_submseteq; [|apply heap_is_alloc, Hh1]. solve_submseteq.
    + rewrite <- Htr. rewrite (tail_trace_wait _ _ _ E). same_trace.
    + rewrite <- (waits_leading b), E. simpl. lia.
Qed.

(** An operation is invoked and throws. *)
Lemma Next_throw ops q st es p0 c0 pend :
  Inv ops q st (Busy (Scheduled (ExtThrow es)) p0 c0 pend) ->
  Next ops q st (Busy (Scheduled (ExtThrow es)) p0 c0 pend).
Proof.
  destruct st as [h r m ts n tr]. intros [Hm Hts Hh Hrm Hq Htr].
  unfold Next. fields. exact_lists. subst m ts. unfold step.
  cbn [micro timers]. call.
  match goal with |- context [fold_left ?f es ?x] =>
    change (fold_left f es x)
      with (logs es (State h r [] [] n (tr ++ [OpStart])))
  end.
  rewrite logs_State. unfold log. fields.
  erewrite settle_pending
    by (cbn [heap]; apply (heap_is_lookup _ _ _ _ Hh); mem).
  unfold push_jobs, store. fields.
  next (Busy (Passing Rejected) p0 c0 pend).
  - apply heap_is_drop with (1 := Hh) (c := Pending [Rignore c0]).
    reflexivity.
  - rewrite <- Htr. unfold op_trace. cbn [op_events op_outcome]. same_trace.
Qed.

(** A capture with a client is invoked: it makes its calls and waits. *)
Lemma Next_capture ops q st client result p0 c0 pend :
  Inv ops q st (Busy (Scheduled (Capture (Some client) result)) p0 c0 pend) ->
  Next ops q st (Busy (Scheduled (Capture (Some client) result)) p0 c0 pend).
Proof.
  destruct st as [h r m ts n tr]. intros [Hm Hts Hh Hrm Hq Htr].
  unfold Next. fields. exact_lists. subst m ts. unfold step.
  cbn [micro timers]. call. unfold capture_operation. cbn [call_handler].
  unfold log, alloc. fields. cbn [exec]. unfold alloc. fields.
  set (a := length h). set (a1 := length (h ++ [Pending []])).
  set (stA := State ((h ++ [Pending []]) ++ [Pending []]) r [] [] n
                    (tr ++ [OpStart])).
  assert (HhA : heap_is (heap stA)
                  ((a1, Pending []) :: (a, Pending [])
                   :: (p0, Pending [Rignore c0]) :: chain_desc c0 pend)).
  { apply heap_is_alloc, heap_is_alloc, Hh. }
  destruct (captureCommands_starts client (commands result) (options result)
              a1 _ stA HhA)
    as (agg & sg & tasks & Hm' & Hts' & Htr' & Hh' & Hsg & _ & Hw).
  cbn zeta in *.
  destruct (exec _ (Frame a1 false) stA) as [h' r' m' ts' n' tr'].
  cbn [stA heap remaining micro timers now trace app] in *. subst m' ts' tr'.
  unfold await.
  erewrite perform_then_pending
    by (cbn [heap]; apply (heap_is_lookup _ _ _ _ Hh'); mem).
  unfold store, push_job. fields.
  next (Busy (Capturing a None agg a1 sg tasks) p0 c0 pend).
  - cbn [adopt_jobs]. solve_Permutation.
  - unfold cdesc in *. cbn [adopt_desc app] in *.
    eapply heap_is_submseteq;
      [|apply heap_is_replace with (1 := Hh') (c := Pending [])
          (c' := Pending [awaiting BReturn (Frame a true)])
          (others := (agg, agg_cell a1 sg) :: flat_map (task_desc agg) tasks
                     ++ (a, Pending []) :: (p0, Pending [Rignore c0])
                     :: chain_desc c0 pend)];
      solve_submseteq.
  - rewrite <- Htr. unfold op_trace, submissions.
    cbn [op_events op_outcome]. same_trace.
  - unfold cweight. rewrite Hw. destruct sg; lia.
Qed.

(** The promise of a waiting operation is adopted. *)
Lemma Next_adopting_suspended ops q st a t due k p0 c0 pend :
  Inv ops q st (Busy (AdoptingSuspended a t due k) p0 c0 pend) ->
  Next ops q st (Busy (AdoptingSuspended a t due k) p0 c0 pend).
Proof.
  destruct st as [h r m ts n tr]. intros [Hm Hts Hh Hrm Hq Htr].
  pose proof (heap_is_alloc h _ (Pending []) Hh) as Hh1.
  unfold Next. fields. exact_lists. subst m ts. unfold step.
  cbn [micro timers]. call. unfold promise_then, alloc. fields.
  erewrite perform_then_pending
    by (cbn [heap]; apply (heap_is_lookup _ _ _ _ Hh1); mem).
  unfold store. fields.
  next (Busy (Running a (length h) t due k) p0 c0 pend).
  apply heap_is_replace with (1 := Hh1) (c := Pending []).
  solve_submseteq.
Qed.

(** The promise of an operation that has ended is adopted. *)
Lemma Next_adopting_finished ops q st a s p0 c0 pend :
  Inv ops q st (Busy (AdoptingFinished a s) p0 c0 pend) ->
  Next ops q st (Busy (AdoptingFinished a s) p0 c0 pend).
Proof.
  destruct st as [h r m ts n tr]. intros [Hm Hts Hh Hrm Hq Htr].
  pose proof (heap_is_alloc h _ (Pending []) Hh) as Hh1.
  unfold Next. fields. exact_lists. subst m ts. unfold step.
  cbn [micro timers]. call. unfold promise_then, alloc. fields.
  erewrite perform_then_settled
    by (cbn [heap]; apply (heap_is_lookup _ _ _ _ Hh1); mem).
  unfold push_job. fields.
  next (Busy (Settling (length h) s) p0 c0 pend).
  eapply heap_is_submseteq; [|exact Hh1]. solve_submseteq.
Qed.

(** The timer of the operation fires. *)
Lemma Next_running ops q st a d t due k p0 c0 pend :
  Inv ops q st (Busy (Running a d t due k) p0 c0 pend) ->
  Next ops q st (Busy (Running a d t due k) p0 c0 pend).
Proof.
  destruct st as [h r m ts n tr]. intros [Hm Hts Hh Hrm Hq Htr].
  unfold Next. fields. exact_lists. subst m ts. unfold step.
  cbn [micro timers]. rewrite pick_one. cbn [heap remaining now trace].
  erewrite settle_pending
    by (cbn [heap]; apply (heap_is_lookup _ _ _ _ Hh); mem).
  unfold push_jobs, store. fields.
  next (Busy (Woken a d k) p0 c0 pend).
  apply heap_is_drop with (1 := Hh) (c := Pending [awaiting k (Frame a true)]).
  solve_submseteq.
Qed.

(** The operation goes on after its wait. *)
Lemma Next_woken ops q st a d k p0 c0 pend :
  Inv ops q st (Busy (Woken a d k) p0 c0 pend) ->
  Next ops q st (Busy (Woken a d k) p0 c0 pend).
Proof.
  destruct st as [h r m ts n tr]. intros [Hm Hts Hh Hrm Hq Htr].
  unfold Next. fields. exact_lists. subst m ts. unfold step.
  cbn [micro timers]. call.
  destruct (after_leading_cases k) as [E|(ms & k' & E)].
  - erewrite exec_external_end;
      [|tauto|apply (heap_is_lookup _ _ _ _ Hh); mem].
    fields.
    next (Busy (Settling d (outcome k)) p0 c0 pend).
    + apply heap_is_drop with (1 := Hh) (c := Pending [Radopt p0 d]).
      reflexivity.
    + rewrite <- Htr. rewrite tail_trace_end by tauto. same_trace.
  - rewrite (exec_external_wait _ _ _ _ _ _ _ _ _ _ E). fields.
    next (Busy (Running a d (length h) (n + ms) k') p0 c0 pend).
    + eapply heap_is_submseteq; [|apply heap_is_alloc, Hh]. solve_submseteq.
    + rewrite <- Htr. rewrite (tail_trace_wait _ _ _ E). same_trace.
    + rewrite <- (waits_leading k), E. simpl. lia.
Qed.

(** The promise made by [then] settles as the operation did. *)
Lemma Next_settling ops q st d s p0 c0 pend :
  Inv ops q st (Busy (Settling d s) p0 c0 pend) ->
  Next ops q st (Busy (Settling d s) p0 c0 pend).
Proof.
  destruct st as [h r m ts n tr]. intros [Hm Hts Hh Hrm Hq Htr].
  unfold Next. fields. exact_lists. subst m ts. unfold step.
  cbn [micro timers].
  assert (Hstep :
    run_job (job_of s (Radopt p0 d)) (State h r [] [] n tr)
    = State (<[d := Settled Fulfilled]> (<[p0 := Settled s]> h)) r
            [job_of s (Rignore c0)] [] n tr).
  { assert (Hp0 : h !! p0 = Some (Pending [Rignore c0]))
      by (apply (heap_is_lookup _ _ _ _ Hh); mem).
    assert (Hd : <[p0 := Settled s]> h !! d = Some (Pending [])).
    { eapply heap_is_lookup.
      - apply heap_is_replace with (1 := Hh) (c := Pending [Rignore c0])
          (c' := Settled s) (others := (d, Pending []) :: chain_desc c0 pend).
        solve_submseteq.
      - mem. }
    destruct s; call;
      rewrite (settle_pending p0 _ (State h r [] [] n tr) _ Hp0);
      unfold push_jobs, store; fields;
      (erewrite settle_pending by exact Hd); reflexivity. }
  eexists _, (Busy (Passing s) p0 c0 pend).
  split; [exact (f_equal Some Hstep)|].
  split; [split|]; fields; try reflexivity; try assumption; try exact I;
    try lia.
  apply heap_is_drop with (c := Pending [])
    (desc := (p0, Settled s) :: (d, Pending []) :: chain_desc c0 pend);
    [|solve_submseteq].
  apply heap_is_replace with (1 := Hh) (c := Pending [Rignore c0]).
  solve_submseteq.
Qed.

(** The promise made by [catch] is fulfilled, whatever the operation did:
    the next operation is due, or the queue is at rest. *)
Lemma Next_passing ops q st s p0 c0 pend :
  Inv ops q st (Busy (Passing s) p0 c0 pend) ->
  Next ops q st (Busy (Passing s) p0 c0 pend).
Proof.
  destruct st as [h r m ts n tr]. intros [Hm Hts Hh Hrm Hq Htr].
  unfold Next. fields. exact_lists. subst m ts. unfold step.
  cbn [micro timers].
  assert (Hstep : forall rs,
    h !! c0 = Some (Pending rs) ->
    run_job (job_of s (Rignore c0)) (State h r [] [] n tr)
    = State (<[c0 := Settled Fulfilled]> h) r
            (map (job_of Fulfilled) rs) [] n tr).
  { intros rs Hc0.
    destruct s; call; (erewrite settle_pending by exact Hc0); reflexivity. }
  destruct pend as [|[[op1 p1] c1] rest]; cbn [chain_desc] in Hh.
  - assert (Hc0 : h !! c0 = Some (Pending []))
      by (apply (heap_is_lookup _ _ _ _ Hh); mem).
    eexists _, (Idle c0). split; [exact (f_equal Some (Hstep _ Hc0))|].
    split; [split|]; fields; try reflexivity; try assumption; try exact I;
      try lia.
    now apply heap_is_update with (Pending []).
  - assert (Hc0 : h !! c0 = Some (Pending [Rnext op1 p1]))
      by (apply (heap_is_lookup _ _ _ _ Hh); mem).
    eexists _, (Busy (Scheduled op1) p1 c1 rest).
    split; [exact (f_equal Some (Hstep _ Hc0))|].
    split; [split|]; fields; try reflexivity; try assumption; try exact I.
    + apply heap_is_drop with (1 := Hh) (c := Pending [Rnext op1 p1]).
      reflexivity.
    + unfold pending_ops. simpl. lia.
Qed.

(** An operation is about to go on after its capture, its promise not
    yet adopted: either of the two jobs may come first. *)
Lemma Next_woken_unadopted ops q st a k p0 c0 pend :
  Inv ops q st (Busy (WokenUnadopted a k) p0 c0 pend) ->
  Next ops q st (Busy (WokenUnadopted a k) p0 c0 pend).
Proof.
  destruct st as [h r m ts n tr]. intros [Hm Hts Hh Hrm Hq Htr].
  pose proof (heap_is_alloc h _ (Pending []) Hh) as Hh1.
  unfold Next. fields. exact_lists. subst ts.
  symmetry in Hm. apply Permutation_length_2_inv in Hm as [-> | ->];
    unfold step; cbn [micro timers]; call.
  - unfold promise_then, alloc. fields.
    erewrite perform_then_pending
      by (cbn [heap]; apply (heap_is_lookup _ _ _ _ Hh1); mem).
    unfold store. fields.
    next (Busy (Woken a (length h) k) p0 c0 pend).
    apply heap_is_replace with (1 := Hh1) (c := Pending []).
    solve_submseteq.
  - destruct (after_leading_cases k) as [E|(ms & k' & E)].
    + erewrite exec_external_end;
        [|tauto|apply (heap_is_lookup _ _ _ _ Hh); mem].
      fields.
      next (Busy (AdoptingFinished a (outcome k)) p0 c0 pend).
      * apply heap_is_replace with (1 := Hh) (c := Pending []).
        reflexivity.
      * rewrite <- Htr. rewrite tail_trace_end by tauto. same_trace.
    + rewrite (exec_external_wait _ _ _ _ _ _ _ _ _ _ E). fields.
      next (Busy (AdoptingSuspended a (length h) (n + ms) k') p0 c0 pend).
      * eapply heap_is_submseteq; [|apply heap_is_alloc, Hh].
        solve_submseteq.
      * rewrite <- Htr. rewrite (tail_trace_wait _ _ _ E). same_trace.
      * rewrite <- (waits_leading k), E. simpl. lia.
Qed.

Lemma no_jobs_no_timers agg tasks :
  flat_map (task_jobs agg) tasks = [] -> flat_map task_timers tasks = [] ->
  count tasks = 0.
Proof.
  induction tasks as [|tk tasks IH]; [reflexivity|].
  cbn [flat_map]. intros [E1 E2]%app_eq_nil [E3 E4]%app_eq_nil.
  change (count (tk :: tasks)) with (uncounted tk + count tasks).
  rewrite (IH E2 E4). destruct tk; try discriminate; reflexivity.
Qed.

(** A capture is under way. *)
Lemma Next_capturing ops q st a adopted agg a1 sg tasks p0 c0 pend :
  Inv ops q st (Busy (Capturing a adopted agg a1 sg tasks) p0 c0 pend) ->
  Next ops q st (Busy (Capturing a adopted agg a1 sg tasks) p0 c0 pend).
Proof.
  intros [Hm Hts Hh Hrm Hq Htr]. fields.
  set (F := adopt_desc p0 a adopted ++ (p0, Pending [Rignore c0])
            :: chain_desc c0 pend).
  assert (HC : CInv agg a1 [awaiting BReturn (Frame a true)]
                 (adopt_jobs p0 a adopted) F st sg tasks).
  { split; try assumption.
    eapply heap_is_submseteq; [|exact Hh]. subst F. solve_submseteq. }
  unfold Next. cbn [aweight phase_weight].
  destruct (micro st) as [|j js] eqn:Emicro.
  - (* no job: a timer fires *)
    symmetry in Hm. apply Permutation_nil_r, app_eq_nil in Hm as [Had Hjobs].
    apply app_eq_nil in Hjobs as [Hsj Hjobs].
    destruct (timers st) as [|t0 ts'] eqn:Etimers.
    { symmetry in Hts. apply Permutation_nil_r in Hts.
      pose proof (no_jobs_no_timers _ _ Hjobs Hts) as Hz.
      destruct sg; [|discriminate Hsj]. cbn [stage_ok] in Hrm. lia. }
    destruct (pick_cons t0 ts') as (x & rest & Hpick & Hperm).
    destruct (capture_timer agg a1 [awaiting BReturn (Frame a true)]
                (adopt_jobs p0 a adopted) F st sg tasks x rest)
      as (Htr' & tasks' & [Hm' Hts' Hh' Hrm'] & Hw & _);
      [now rewrite Etimers|exact HC|].
    unfold step. rewrite Emicro, Etimers, Hpick. destruct x as [due t].
    rewrite Emicro in *. cbn [fst snd] in *.
    eexists _, (Busy (Capturing a adopted agg a1 sg tasks') p0 c0 pend).
    split; [reflexivity|].
    split; [split|]; fields; try assumption; try lia.
    + eapply heap_is_submseteq; [|exact Hh']. subst F. solve_submseteq.
    + now rewrite Htr'.
  - assert (Hj : j ∈ adopt_jobs p0 a adopted ++ cjobs agg a1 sg tasks)
      by (rewrite <- Hm; left).
    apply elem_of_app in Hj as [Hj|Hj].
    + (* the promise of the operation is adopted *)
      destruct adopted as [d|]; [inversion Hj|].
      apply list_elem_of_singleton in Hj as ->.
      cbn [adopt_jobs app] in Hm. apply Permutation_cons_inv in Hm.
      destruct st as [h r m ts n tr]. fields. subst m.
      pose proof (heap_is_alloc h _ (Pending []) Hh) as Hh1.
      unfold step. cbn [micro timers]. call. unfold promise_then, alloc.
      fields.
      erewrite perform_then_pending
        by (cbn [heap]; apply (heap_is_lookup _ _ _ _ Hh1); mem).
      unfold store. fields.
      next (Busy (Capturing a (Some (length h)) agg a1 sg tasks) p0 c0 pend).
      eapply heap_is_submseteq;
        [|apply heap_is_replace with (1 := Hh1) (c := Pending [])
            (c' := Pending [Radopt p0 (length h)])
            (others := (length h, Pending [])
                       :: cdesc agg a1 [awaiting BReturn (Frame a true)] sg tasks
                       ++ (p0, Pending [Rignore c0]) :: chain_desc c0 pend)];
        cbn [adopt_desc app]; solve_submseteq.
    + (* a job of the capture *)
      destruct (capture_job agg a1 [awaiting BReturn (Frame a true)]
                  (adopt_jobs p0 a adopted) F st sg tasks j js Emicro Hj)
        as (Htr' & [(sg' & tasks' & [Hm' Hts' Hh' Hrm'] & Hw & _)
                   |(-> & Hz & Hm' & Hts' & Hh')]);
        [exact HC| |].
      * unfold step. rewrite Emicro.
        eexists _, (Busy (Capturing a adopted agg a1 sg' tasks') p0 c0 pend).
        split; [reflexivity|].
        split; [split|]; fields; try assumption; try lia.
        -- eapply heap_is_submseteq; [|exact Hh']. subst F. solve_submseteq.
        -- now rewrite Htr'.
      * unfold step. rewrite Emicro.
        destruct (count_zero agg _ Hz) as (_ & Htm & _).
        unfold ctimers in Hts. rewrite Htm in Hts.
        destruct adopted as [d|]; cbn [adopt_jobs adopt_desc map app] in *.
        -- eexists _, (Busy (Woken a d BReturn) p0 c0 pend).
           split; [reflexivity|].
           split; [split|]; fields; try assumption; try exact I.
           ++ now rewrite Hts'.
           ++ eapply heap_is_submseteq; [|exact Hh']. subst F.
              solve_submseteq.
           ++ now rewrite Htr'.
           ++ unfold cweight. simpl. lia.
        -- eexists _, (Busy (WokenUnadopted a BReturn) p0 c0 pend).
           split; [reflexivity|].
           split; [split|]; fields; try assumption; try exact I.
           ++ now rewrite Hts'.
           ++ eapply heap_is_submseteq; [|exact Hh']. subst F.
              solve_submseteq.
           ++ now rewrite Htr'.
           ++ unfold cweight. simpl. lia.
Qed.

Lemma Inv_step ops q st ph p0 c0 pend :
  Inv ops q st (Busy ph p0 c0 pend) -> Next ops q st (Busy ph p0 c0 pend).
Proof.
  destruct ph as [[b|es|[client|] result]| | | | | | | |].
  - now apply Next_async with b.
  - apply Next_throw.
  - apply Next_capture.
  - now apply Next_async with BReturn.
  - apply Next_adopting_suspended.
  - apply Next_adopting_finished.
  - apply Next_running.
  - apply Next_woken_unadopted.
  - apply Next_woken.
  - apply Next_capturing.
  - apply Next_settling.
  - apply Next_passing.
Qed.

Lemma Inv_idle ops q st c :
  Inv ops q st (Idle c) ->
  step st = None /\ quiescent st /\ trace st = flat_map op_trace ops
  /\ heap st !! queue q = Some (Settled Fulfilled).
Proof.
  intros [Hm Hts Hh _ Hq Htr]. fields. exact_lists.
  repeat split; try assumption.
  - unfold step. rewrite Hm, Hts. now rewrite pick_nil.
  - now rewrite <- Htr, app_nil_r.
  - rewrite Hq. apply (heap_is_lookup _ _ _ _ Hh). mem.
Qed.

(** The tail promise of the queue is pending or fulfilled: never rejected. *)
Lemma Inv_tail ops q st A :
  Inv ops q st A ->
  heap st !! queue q = Some (Pending [])
  \/ heap st !! queue q = Some (Settled Fulfilled).
Proof.
  intros HI. destruct A as [c|ph p0 c0 pend].
  - right. now apply Inv_idle in HI.
  - left. destruct HI as [_ _ Hh _ Hq _]. rewrite Hq.
    apply (heap_is_lookup _ _ _ _ Hh). cbn [adesc atail].
    apply elem_of_app. right. apply chain_tail_in.
Qed.

Lemma Inv_prefix ops q st A :
  Inv ops q st A -> trace st `prefix_of` flat_map op_trace ops.
Proof. intros [_ _ _ _ _ Htr]. now exists (afuture A). Qed.

Lemma Inv_run ops q st A m :
  Inv ops q st A -> exists A', Inv ops q (run m st) A'.
Proof.
  revert st A. induction m as [|m IH]; intros st A HI; [eauto|].
  cbn [run]. destruct A as [c|ph p0 c0 pend].
  - destruct (Inv_idle _ _ _ _ HI) as [-> _]. eauto.
  - destruct (Inv_step _ _ _ _ _ _ _ HI) as (st' & A' & -> & HI' & _). eauto.
Qed.

(** Left alone, the loop brings the queue to rest. *)
Lemma Inv_drain ops q st A :
  Inv ops q st A -> exists n c, Inv ops q (run n st) (Idle c).
Proof.
  remember (aweight A) as w eqn:Hw. revert st A Hw.
  induction w as [w IH] using lt_wf_ind. intros st A -> HI.
  destruct A as [c|ph p0 c0 pend].
  - exists 0, c. exact HI.
  - destruct (Inv_step _ _ _ _ _ _ _ HI) as (st' & A' & Hstep & HI' & Hlt).
    destruct (IH _ Hlt st' A' eq_refl HI') as (n & c & Hn).
    exists (S n), c. cbn [run]. now rewrite Hstep.
Qed.

Lemma Inv_act ops q st A a :
  Inv ops q st A ->
  exists A', Inv (ops ++ enqueued [a]) (act (q, st) a).1 (act (q, st) a).2 A'.
Proof.
  intros HI. destruct a as [op|]; cbn [act enqueued fst snd].
  - eexists. exact (Inv_enqueue _ _ _ _ _ HI).
  - rewrite app_nil_r. now apply Inv_run with A.
Qed.

Lemma enqueued_app s1 s2 : enqueued (s1 ++ s2) = enqueued s1 ++ enqueued s2.
Proof.
  induction s1 as [|[op|] s1 IH]; simpl; congruence.
Qed.

Lemma Inv_play script :
  exists A, Inv (enqueued script) (play script).1 (play script).2 A.
Proof.
  unfold play. induction script as [|a script IH] using rev_ind.
  - exists (Idle 0). apply Inv_initial.
  - destruct IH as [A HI]. rewrite fold_left_app, enqueued_app. cbn [fold_left].
    destruct (fold_left act script (new_OperationQueue initial)) as [q st].
    now apply Inv_act with A.
Qed.

End QueueInvariant.

(** ** A capture on its own *)

Section Standalone.

Context `{TimerPolicy}.

(** [captureCommands] has returned and nothing is left to run: its promise
    is fulfilled and so are, or rejected, those of the calls. *)
Definition capture_done (a : nat) (ps : list nat) (st : state) : Prop :=
  quiescent st
  /\ heap st !! a = Some (Settled Fulfilled)
  /\ forall p, p ∈ ps -> exists s, heap st !! p = Some (Settled s).

(** It is under way: its promise is pending. *)
Definition capture_running (a : nat) (ps : list nat) (st : state)
    (w : nat) : Prop :=
  exists agg sg tasks,
    CInv agg a [] [] [] st sg tasks
    /\ map task_promise tasks = ps /\ cweight sg tasks = w.

Lemma capture_running_pending a ps st w :
  capture_running a ps st w -> heap st !! a = Some (Pending []).
Proof.
  intros (agg & sg & tasks & [_ _ Hh _] & _).
  apply (heap_is_lookup _ _ _ _ Hh). unfold cdesc. mem.
Qed.

Lemma capture_done_stable a ps st m :
  capture_done a ps st -> run m st = st.
Proof.
  intros [[Hm Hts] _]. destruct m as [|m]; [reflexivity|].
  cbn [run]. unfold step. now rewrite Hm, Hts, pick_nil.
Qed.

Lemma capture_turn a ps st w :
  capture_running a ps st w ->
  exists st',
    step st = Some st' /\ trace st' = trace st
    /\ ((exists w', w' < w /\ capture_running a ps st' w')
        \/ capture_done a ps st').
Proof.
  intros (agg & sg & tasks & HC & Hps & Hw).
  pose proof HC as [Hm Hts Hh Hrm]. cbn [app] in Hm.
  destruct (micro st) as [|j js] eqn:Emicro.
  - symmetry in Hm. apply Permutation_nil_r, app_eq_nil in Hm as [Hsj Hjobs].
    destruct (timers st) as [|t0 ts'] eqn:Etimers.
    { symmetry in Hts. apply Permutation_nil_r in Hts.
      pose proof (no_jobs_no_timers _ _ Hjobs Hts) as Hz.
      destruct sg; [|discriminate Hsj]. cbn [stage_ok] in Hrm. lia. }
    destruct (pick_cons t0 ts') as (x & rest & Hpick & Hperm).
    destruct (capture_timer agg a [] [] [] st sg tasks x rest)
      as (Htr' & tasks' & HC' & Hw' & Hps');
      [now rewrite Etimers|exact HC|].
    unfold step. rewrite Emicro, Etimers, Hpick. destruct x as [due t].
    rewrite Emicro in *. cbn [fst snd] in *.
    eexists. split; [reflexivity|]. split; [exact Htr'|]. left.
    exists (cweight sg tasks'). split; [lia|].
    exists agg, sg, tasks'.
    split; [exact HC'|split; [congruence|reflexivity]].
  - assert (Hj : j ∈ cjobs agg a sg tasks) by (rewrite <- Hm; left).
    destruct (capture_job agg a [] [] [] st sg tasks j js Emicro Hj HC)
      as (Htr' & [(sg' & tasks' & HC' & Hw' & Hps')
                 |(-> & Hz & Hm' & Hts' & Hh')]).
    + unfold step. rewrite Emicro.
      eexists. split; [reflexivity|]. split; [exact Htr'|]. left.
      exists (cweight sg' tasks'). split; [lia|].
      exists agg, sg', tasks'.
      split; [exact HC'|split; [congruence|reflexivity]].
    + unfold step. rewrite Emicro.
      eexists. split; [reflexivity|]. split; [exact Htr'|]. right.
      destruct (count_zero agg _ Hz) as (_ & Htm & Hall).
      unfold ctimers in Hts. rewrite Htm in Hts. cbn [map app] in Hm'.
      exact_lists.
      split; [split; [exact Hm'|now rewrite Hts']|]. split.
      * apply (heap_is_lookup _ _ _ _ Hh'). mem.
      * intros p Hp. rewrite <- Hps in Hp.
        apply list_elem_of_fmap in Hp as (tk & -> & Htk).
        pose proof Htk as Hin. apply list_elem_of_In in Hin.
        apply (proj1 (List.Forall_forall _ _) Hall) in Hin as (x & s & ->).
        exists s. apply (heap_is_lookup _ _ _ _ Hh').
        do 2 right. apply elem_of_app. left.
        apply list_elem_of_In, in_flat_map. exists (TCounted x s).
        split; [now apply list_elem_of_In|now left].
Qed.

Lemma capture_run a ps st w m :
  capture_running a ps st w ->
  trace (run m st) = trace st
  /\ ((exists w', capture_running a ps (run m st) w')
      \/ capture_done a ps (run m st)).
Proof.
  revert st w. induction m as [|m IH]; intros st w HR.
  - split; [reflexivity|]. left. now exists w.
  - destruct (capture_turn _ _ _ _ HR) as (st' & Hstep & Htr & Hnext).
    cbn [run]. rewrite Hstep. destruct Hnext as [(w' & _ & HR')|HD].
    + destruct (IH _ _ HR') as [Htr' Hnext]. split; [congruence|exact Hnext].
    + rewrite (capture_done_stable _ _ _ _ HD). split; [exact Htr|now right].
Qed.

Lemma capture_drain a ps st w :
  capture_running a ps st w ->
  exists n, capture_done a ps (run n st).
Proof.
  revert st. induction w as [w IH] using lt_wf_ind. intros st HR.
  destruct (capture_turn _ _ _ _ HR) as (st' & Hstep & _ & Hnext).
  destruct Hnext as [(w' & Hlt & HR')|HD].
  - destruct (IH _ Hlt _ HR') as [n Hn]. exists (S n). cbn [run].
    now rewrite Hstep.
  - exists 1. cbn [run]. now rewrite Hstep.
Qed.

(** The call of [captureCommands] itself. *)
Lemma capture_invoked client cmds opts :
  let r := invoke (captureCommands client cmds opts) initial in
  let ps := (invoke_each exec
               (map (fun cmd => addCommand client cmd [] opts) cmds)
               (alloc (Pending []) initial).2).1 in
  trace r.2 = map (fun cmd => Submit cmd [] opts) cmds
  /\ length ps = length cmds
  /\ exists w, capture_running r.1 ps r.2 w.
Proof.
  cbn zeta. unfold invoke, initial, alloc.
  cbn [heap remaining micro timers now trace length fst snd app].
  set (st := State [Pending []] ∅ [] [] 0 []).
  destruct (captureCommands_starts client cmds opts 0 [] st)
    as (agg & sg & tasks & Hm & Hts & Htr & Hh & Hsg & Hps & Hw).
  { split.
    - repeat constructor. intros Hin. inversion Hin.
    - intros x c [= -> ->]%list_elem_of_singleton. reflexivity. }
  cbn zeta in *. cbn [st micro timers trace app] in Hm, Hts, Htr.
  split; [exact Htr|]. split.
  - rewrite <- Hps, length_map.
    rewrite <- (length_map task_weight), Hw. now rewrite length_map.
  - exists (cweight sg tasks), agg, sg, tasks.
    split; [split|split]; try assumption; try reflexivity.
    + now rewrite Hm.
    + now rewrite Hts.
Qed.

End Standalone.

(** ** Traces *)

Section Traces.

Lemma one_at_a_time_events op t :
  one_at_a_time true (op_events op ++ t) = one_at_a_time true t.
Proof.
  assert (Heff : forall es, one_at_a_time true (map Effect es ++ t)
                            = one_at_a_time true t).
  { induction es as [|e es IH]; [reflexivity|exact IH]. }
  destruct op as [b|es|[client|] result]; cbn [op_events]; auto.
  unfold submissions. induction (commands result) as [|c cs IH];
    [reflexivity|exact IH].
Qed.

Lemma one_at_a_time_op op t :
  one_at_a_time false (op_trace op ++ t) = one_at_a_time false t.
Proof.
  unfold op_trace. cbn [app one_at_a_time negb andb].
  rewrite <- app_assoc. rewrite one_at_a_time_events. reflexivity.
Qed.

Lemma one_at_a_time_ops ops :
  one_at_a_time false (flat_map op_trace ops) = true.
Proof.
  induction ops as [|op ops IH]; [reflexivity|].
  cbn [flat_map]. now rewrite one_at_a_time_op.
Qed.

Lemma one_at_a_time_prefix t1 : forall r t2,
  one_at_a_time r (t1 ++ t2) = true -> one_at_a_time r t1 = true.
Proof.
  induction t1 as [|e t1 IH]; intros r t2; [reflexivity|].
  destruct e; cbn [app one_at_a_time];
    intros [Hr Ht]%andb_true_iff; rewrite Hr; cbn [andb]; eauto.
Qed.

Lemma filter_prefix {A} (f : A -> bool) (t1 t2 : list A) :
  t1 `prefix_of` t2 -> List.filter f t1 `prefix_of` List.filter f t2.
Proof. intros [k ->]. rewrite List.filter_app. now eexists. Qed.

Lemma trace_enqueue q op st : trace (enqueue q op st).2 = trace st.
Proof.
  destruct st as [h r m ts n tr]. unfold enqueue, promise_then, alloc.
  cbn [heap remaining micro timers now trace].
  unfold perform_then.
  repeat match goal with
         | |- context [match ?x with _ => _ end] => destruct x
         end; reflexivity.
Qed.

End Traces.

(** ** Properties of the queue and of capture *)

(** C1. Whatever operations are enqueued and whenever (between any two
    turns of the event loop), and however long each of them waits: what
    has happened at any moment is an initial part of the operations'
    traces laid end to end in enqueue order, so no operation starts before
    the one enqueued before it has ended; and left to itself the loop comes
    to rest with exactly all of them done, in that order. *)
Theorem operations_run_in_enqueue_order `{TimerPolicy} (script : list action) :
  let st := (play script).2 in
  trace st `prefix_of` flat_map op_trace (enqueued script)
  /\ one_at_a_time false (trace st) = true
  /\ exists n,
       quiescent (run n st)
       /\ trace (run n st) = flat_map op_trace (enqueued script).
Proof.
  cbn zeta. destruct (Inv_play script) as [A HI].
  pose proof (Inv_prefix _ _ _ _ HI) as Hpre. split; [exact Hpre|]. split.
  - destruct Hpre as [k Hk].
    apply one_at_a_time_prefix with k. rewrite <- Hk.
    apply one_at_a_time_ops.
  - destruct (Inv_drain _ _ _ _ HI) as (n & c & Hn).
    exists n. now apply Inv_idle in Hn as (_ & Hq & Htr & _).
Qed.

(** C2. A failing operation (one that throws, or whose promise rejects)
    does not break the queue: the tail promise of the queue is never
    rejected, and when the loop comes to rest it is fulfilled and every
    operation enqueued after the failing one has run to its end. *)
Theorem failures_are_swallowed `{TimerPolicy} (script : list action) :
  let q := (play script).1 in
  let st := (play script).2 in
  (heap st !! queue q = Some (Pending [])
   \/ heap st !! queue q = Some (Settled Fulfilled))
  /\ exists n,
       quiescent (run n st)
       /\ heap (run n st) !! queue q = Some (Settled Fulfilled)
       /\ forall before failing after,
            enqueued script = before ++ failing :: after ->
            op_outcome failing = Rejected ->
            trace (run n st)
            = flat_map op_trace before
              ++ (OpStart :: op_events failing ++ [OpEnd Rejected])
              ++ flat_map op_trace after.
Proof.
  cbn zeta. destruct (Inv_play script) as [A HI].
  split; [exact (Inv_tail _ _ _ _ HI)|].
  destruct (Inv_drain _ _ _ _ HI) as (n & c & Hn).
  exists n. apply Inv_idle in Hn as (_ & Hq & Htr & Htail).
  split; [exact Hq|]. split; [exact Htail|].
  intros before failing after E Hfail.
  rewrite Htr, E, flat_map_app. cbn [flat_map]. unfold op_trace at 2.
  now rewrite Hfail.
Qed.

Lemma failures_are_swallowed_witness :
  exists n,
    trace (run n (play failing_second).2)
    = [OpStart; Effect 1; OpEnd Fulfilled; OpStart; Effect 2; OpEnd Rejected;
       OpStart; Effect 3; OpEnd Fulfilled].
Proof.
  destruct (failures_are_swallowed failing_second) as (_ & n & _ & _ & Hn).
  exists n.
  apply (Hn [ExtAsync (BEffect 1 BReturn)] (ExtAsync (BEffect 2 BThrow))
            [ExtAsync (BEffect 3 BReturn)]); reflexivity.
Defined.

(** C7. [captureCommands] calls [addCommand] once for each command, in
    order and at once, and never again; its promise stays pending until
    the promise of every call has settled, then is fulfilled, whatever the
    calls' outcomes; and it does get there. *)
Theorem captureCommands_submits_each `{TimerPolicy} (client : MemoryBoxClient)
    (cmds : list jsstring) (opts : capture_options) :
  let calls := map (fun cmd => addCommand client cmd [] opts) cmds in
  let ps := (invoke_each exec calls (alloc (Pending []) initial).2).1 in
  let a := (invoke (captureCommands client cmds opts) initial).1 in
  let st := (invoke (captureCommands client cmds opts) initial).2 in
  length ps = length cmds
  /\ trace st = map (fun cmd => Submit cmd [] opts) cmds
  /\ (forall m,
        trace (run m st) = trace st
        /\ forall s, heap (run m st) !! a = Some (Settled s) ->
             s = Fulfilled
             /\ forall p, p ∈ ps ->
                  exists s', heap (run m st) !! p = Some (Settled s'))
  /\ exists n,
       quiescent (run n st)
       /\ heap (run n st) !! a = Some (Settled Fulfilled).
Proof.
  cbn zeta.
  destruct (capture_invoked client cmds opts) as (Htr & Hlen & w & HR).
  cbn zeta in *. split; [exact Hlen|]. split; [exact Htr|]. split.
  - intros m. destruct (capture_run _ _ _ _ m HR) as [Htr' [[w' HR']|HD]].
    + split; [exact Htr'|]. intros s Hs.
      rewrite (capture_running_pending _ _ _ _ HR') in Hs. discriminate Hs.
    + split; [exact Htr'|]. intros s Hs. destruct HD as (_ & Ha & Hps).
      rewrite Ha in Hs. injection Hs as <-. split; [reflexivity|exact Hps].
  - destruct (capture_drain _ _ _ _ HR) as [n (Hq & Ha & _)]. eauto.
Qed.

Lemma captureCommands_submits_each_witness :
  let r := invoke (captureCommands rejecting_cmd2 three_commands
                     success_options) initial in
  heap (run 20 r.2) !! r.1 = Some (Settled Fulfilled)
  /\ forall p, p ∈ [1; 3; 4] ->
       exists s, heap (run 20 r.2) !! p = Some (Settled s).
Proof.
  cbn zeta. split; [vm_compute; reflexivity|].
  apply (proj2 (proj1 (proj2 (proj2
           (captureCommands_submits_each rejecting_cmd2 three_commands
              success_options))) 20) Fulfilled).
  vm_compute. reflexivity.
Defined.

(** C8. [queueCapture] without a client, on a queue with any past: the
    call changes nothing that can be seen; the operation it enqueues
    starts and ends fulfilled when its turn comes, and no submission call
    is ever made beyond those of the operations enqueued before. *)
Theorem queueCapture_without_client `{TimerPolicy} (script : list action)
    (result : capture_request) :
  let q := (play script).1 in
  let st := (play script).2 in
  let q' := (queueCapture q None result st).1 in
  let st' := (queueCapture q None result st).2 in
  trace st' = trace st
  /\ (forall m,
        submits (trace (run m st'))
        `prefix_of` submits (flat_map op_trace (enqueued script)))
  /\ exists n,
       quiescent (run n st')
       /\ trace (run n st')
          = flat_map op_trace (enqueued script) ++ [OpStart; OpEnd Fulfilled]
       /\ heap (run n st') !! queue q' = Some (Settled Fulfilled).
Proof.
  cbn zeta. unfold queueCapture. split; [apply trace_enqueue|].
  destruct (Inv_play script) as [A HI].
  pose proof (Inv_enqueue _ _ _ _ (Capture None result) HI) as HI'.
  cbn [operation_of] in HI'. split.
  - intros m. destruct (Inv_run _ _ _ _ m HI') as [A' Hm].
    apply Inv_prefix in Hm.
    apply (filter_prefix is_submit) in Hm. unfold submits.
    rewrite flat_map_app, List.filter_app in Hm. cbn in Hm.
    now rewrite app_nil_r in Hm.
  - destruct (Inv_drain _ _ _ _ HI') as (n & c & Hn).
    exists n. apply Inv_idle in Hn as (_ & Hq & Htr & Htail).
    split; [exact Hq|]. split; [|exact Htail].
    rewrite Htr, flat_map_app. reflexivity.
Qed.

(** * Further properties *)

(** ** What the splitter keeps and what it drops *)

(** [s] read as the entries [es], in order, with a gap of white space and
    operators before each of them and after the last. *)
Inductive Woven : jsstring -> list jsstring -> Prop :=
| woven_gap g : SeparatorsOnly g -> Woven g []
| woven_entry g e s es :
    SeparatorsOnly g -> Woven s es -> Woven (g ++ e ++ s) (e :: es).

Section Weaving.

Import Reference.
Implicit Types s t cur rest line e f g : jsstring.

Lemma Woven_app s1 es1 s2 es2 :
  Woven s1 es1 -> Woven s2 es2 -> Woven (s1 ++ s2) (es1 ++ es2).
Proof.
  induction 1 as [g Hg|g e s es Hg _ IH]; intros H2.
  - destruct H2 as [g2 Hg2|g2 e s es Hg2 Hs]; simpl.
    + constructor. now apply SeparatorsOnly_app.
    + rewrite app_assoc. constructor; [now apply SeparatorsOnly_app|exact Hs].
  - simpl. rewrite <- !app_assoc. constructor; auto.
Qed.

Lemma trim_infix f :
  exists w1 w2,
    f = w1 ++ trim f ++ w2
    /\ all_white_space w1 = true /\ all_white_space w2 = true.
Proof.
  destruct (trim_start_suffix f) as [w1 [E1 H1]].
  destruct (trim_end_prefix (trim_start f)) as [w2 [E2 H2]].
  exists w1, w2. unfold trim. now rewrite <- E2.
Qed.

Lemma Woven_fragment f : Woven f (List.filter nonempty [trim f]).
Proof.
  destruct (trim_infix f) as (w1 & w2 & E & H1 & H2).
  apply all_white_space_SeparatorsOnly in H1, H2.
  simpl. unfold nonempty. destruct (trim f) as [|a m] eqn:Et; simpl.
  - constructor. rewrite E. now apply SeparatorsOnly_app.
  - rewrite E. constructor; [exact H1|]. now constructor.
Qed.

Lemma starts_with_drop R S :
  starts_with R S = true -> S = R ++ drop (length R) S.
Proof.
  revert S. induction R as [|a R IH]; intros [|b S]; simpl;
    try reflexivity; try discriminate.
  intros [->%N.eqb_eq H]%andb_true_iff. f_equal. now apply IH.
Qed.

Lemma starts_with_app R b : starts_with R (R ++ b) = true.
Proof. induction R as [|a R IH]; simpl; [reflexivity|]. now rewrite N.eqb_refl. Qed.

Lemma starts_with_mono R S T :
  starts_with R S = true -> starts_with R (S ++ T) = true.
Proof.
  intros H. rewrite (starts_with_drop _ _ H), <- app_assoc.
  apply starts_with_app.
Qed.

(** Where an operator starts, the current fragment ends and reading goes
    on after the operator. *)
Lemma fragments_go_operator cur c rest op :
  List.find (fun op => starts_with op (c :: rest)) operators = Some op ->
  In op operators
  /\ c :: rest = op ++ drop (length op) (c :: rest)
  /\ fragments_go 0 cur (c :: rest)
     = cur :: fragments_go 0 [] (drop (length op) (c :: rest)).
Proof.
  intros Hfind. cbn [fragments_go]. rewrite Hfind.
  apply find_some in Hfind as [Hin Hsw].
  pose proof (operators_nonempty _ Hin) as Hpos.
  pose proof (starts_with_length _ _ Hsw) as Hlen. simpl in Hlen.
  split; [exact Hin|]. split; [now apply starts_with_drop|].
  rewrite fragments_go_skip by lia.
  replace (length op) with (Datatypes.S (length op - 1)) at 2 by lia.
  reflexivity.
Qed.

Lemma Woven_fragments n : forall rest cur,
  length rest <= n ->
  Woven (cur ++ rest)
        (List.filter nonempty (map trim (fragments_go 0 cur rest))).
Proof.
  induction n as [|n IH]; intros [|c rest] cur Hn; simpl in Hn; try lia;
    try (rewrite app_nil_r; apply Woven_fragment).
  destruct (List.find (fun op => starts_with op (c :: rest)) operators)
    as [op|] eqn:Hfind.
  - destruct (fragments_go_operator cur _ _ _ Hfind) as (Hin & E & ->).
    pose proof (operators_nonempty _ Hin) as Hpos.
    assert (Hlen : length (drop (length op) (c :: rest)) <= n)
      by (rewrite length_drop; simpl; lia).
    revert E Hlen. generalize (drop (length op) (c :: rest)) as rest'.
    intros rest' -> Hlen. cbn [map].
    change (trim cur :: ?l) with ([trim cur] ++ l). rewrite List.filter_app.
    apply Woven_app; [apply Woven_fragment|].
    rewrite <- (app_nil_l (List.filter _ _)).
    apply Woven_app.
    + constructor. now apply SeparatorsOnly_operator.
    + apply (IH _ []). exact Hlen.
  - cbn [fragments_go]. rewrite Hfind.
    replace (cur ++ c :: rest) with ((cur ++ [c]) ++ rest)
      by now rewrite <- app_assoc.
    apply IH. lia.
Qed.

Lemma Woven_lines rest : forall cur,
  Woven (cur ++ rest)
        (flat_map (fun l => List.filter nonempty (map trim (fragments l)))
                  (lines_go cur rest)).
Proof.
  induction rest as [|c rest IH]; intros cur.
  - simpl. rewrite !app_nil_r. apply (Woven_fragments (length cur) cur []). lia.
  - cbn [lines_go]. destruct (N.eqb_spec c LF) as [->|Hc].
    + cbn [flat_map].
      change (cur ++ LF :: rest) with (cur ++ [LF] ++ rest).
      apply Woven_app; [apply (Woven_fragments (length cur) cur []); lia|].
      rewrite <- (app_nil_l (flat_map _ _)).
      apply Woven_app; [|apply (IH [])].
      constructor. apply so_space; [reflexivity|constructor].
    + replace (cur ++ c :: rest) with ((cur ++ [c]) ++ rest)
        by now rewrite <- app_assoc.
      apply IH.
Qed.

Lemma splitCommands_Woven s : Woven s (splitCommands s).
Proof.
  rewrite splitCommands_reference. unfold splitCommands_spec.
  rewrite filter_map_flat_map. apply (Woven_lines s []).
Qed.

Lemma Woven_weave s es :
  Woven s es ->
  exists gaps,
    length gaps = Datatypes.S (length es)
    /\ forallb separators_only gaps = true
    /\ s = weave gaps es.
Proof.
  induction 1 as [g Hg|g e s es Hg _ (gaps & Hlen & Hall & ->)].
  - exists [g]. simpl. rewrite (separators_only_complete _ Hg). auto.
  - exists (g :: gaps). simpl. rewrite (separators_only_complete _ Hg).
    rewrite Hlen. destruct gaps; [discriminate Hlen|]. auto.
Qed.

End Weaving.

(** X1. The command line is its commands, in the order of the result,
    with a gap before each of them and after the last, and every gap is
    made of white space and operators only: [splitCommands] drops nothing
    else, adds nothing and reorders nothing. *)
Theorem splitCommands_weave (s : jsstring) :
  exists gaps : list jsstring,
    length gaps = Datatypes.S (length (splitCommands s))
    /\ forallb separators_only gaps = true
    /\ s = weave gaps (splitCommands s).
Proof. apply Woven_weave, splitCommands_Woven. Qed.

(** X2. [splitCommands] returns no command exactly for the inputs made of
    operators and white space only. *)
Theorem splitCommands_empty_iff (s : jsstring) :
  splitCommands s = [] <-> separators_only s = true.
Proof.
  split.
  - intros E. pose proof (splitCommands_Woven s) as HW. rewrite E in HW.
    inversion HW; subst. now apply separators_only_complete.
  - intros H. apply splitCommands_SeparatorsOnly.
    now apply separators_only_spec.
Qed.

(** ** The entries of the result *)

Section Entries.

Import Reference.
Implicit Types s t cur rest line e f g R : jsstring.

(** No operator starts anywhere in [s]. *)
Definition NoStart s : Prop :=
  forall i op, In op operators -> starts_with op (drop i s) = false.

Lemma starts_with_nil op : In op operators -> starts_with op [] = false.
Proof. intros [<-|[<-|[<-|[]]]]; reflexivity. Qed.

Lemma NoStart_fragments n : forall rest cur,
  length rest <= n ->
  (forall i op, i < length cur -> In op operators ->
     starts_with op (drop i (cur ++ rest)) = false) ->
  Forall NoStart (fragments_go 0 cur rest).
Proof.
  assert (Hend : forall cur rest,
    (forall i op, i < length cur -> In op operators ->
       starts_with op (drop i (cur ++ rest)) = false) -> NoStart cur).
  { intros cur rest Hcur i op Hop.
    destruct (Nat.lt_ge_cases i (length cur)) as [Hi|Hi].
    - specialize (Hcur i op Hi Hop).
      rewrite drop_app_le in Hcur by lia.
      destruct (starts_with op (drop i cur)) eqn:E; [|reflexivity].
      now rewrite (starts_with_mono _ _ rest E) in Hcur.
    - rewrite drop_ge by lia. now apply starts_with_nil. }
  induction n as [|n IH]; intros [|c rest] cur Hn Hcur; simpl in Hn; try lia;
    try (constructor; [|constructor]; exact (Hend _ _ Hcur)).
  destruct (List.find (fun op => starts_with op (c :: rest)) operators)
    as [op|] eqn:Hfind.
  - destruct (fragments_go_operator cur _ _ _ Hfind) as (Hin & _ & ->).
    pose proof (operators_nonempty _ Hin) as Hpos.
    constructor; [exact (Hend _ _ Hcur)|].
    apply IH; [rewrite length_drop; simpl; lia|].
    intros i op' Hi. simpl in Hi. lia.
  - cbn [fragments_go]. rewrite Hfind. apply IH; [lia|].
    intros i op Hi Hop. rewrite <- app_assoc. cbn [app].
    rewrite length_app in Hi. simpl in Hi.
    destruct (Nat.eq_dec i (length cur)) as [->|Hne].
    + rewrite drop_app_length.
      exact (find_none _ _ Hfind op Hop).
    + apply Hcur; [lia|exact Hop].
Qed.

Lemma NoStart_infix a e b : NoStart (a ++ e ++ b) -> NoStart e.
Proof.
  intros H i op Hop.
  destruct (Nat.lt_ge_cases i (length e)) as [Hi|Hi].
  - specialize (H (length a + i) op Hop).
    rewrite drop_app_ge, drop_app_le in H by lia.
    replace (length a + i - length a) with i in H by lia.
    destruct (starts_with op (drop i e)) eqn:E; [|reflexivity].
    now rewrite (starts_with_mono _ _ b E) in H.
  - rewrite drop_ge by lia. now apply starts_with_nil.
Qed.

Lemma NoStart_trim f : NoStart f -> NoStart (trim f).
Proof.
  destruct (trim_infix f) as (w1 & w2 & E & _). intros H.
  rewrite E in H. exact (NoStart_infix _ _ _ H).
Qed.

Lemma In_trim x f : In x (trim f) -> In x f.
Proof.
  destruct (trim_infix f) as (w1 & w2 & E & _). intros H.
  rewrite E, !in_app_iff. auto.
Qed.

Lemma lines_no_LF rest : forall cur,
  ~ In LF cur -> Forall (fun l => ~ In LF l) (lines_go cur rest).
Proof.
  induction rest as [|c rest IH]; intros cur Hcur.
  - repeat constructor. exact Hcur.
  - cbn [lines_go]. destruct (N.eqb_spec c LF) as [->|Hc].
    + constructor; [exact Hcur|]. apply IH. simpl. tauto.
    + apply IH. rewrite in_app_iff. simpl. intuition congruence.
Qed.

Lemma fragments_within rest : forall k cur,
  Forall (fun f => forall x, In x f -> In x (cur ++ rest))
         (fragments_go k cur rest).
Proof.
  induction rest as [|c rest IH]; intros k cur.
  - repeat constructor. now rewrite app_nil_r.
  - cbn [fragments_go]. destruct k as [|k].
    + destruct (List.find _ operators).
      * constructor; [intros x Hx; rewrite in_app_iff; auto|].
        eapply Forall_impl; [apply IH|]. cbn beta.
        intros f Hf x Hx. rewrite in_app_iff. right. right.
        exact (Hf x Hx).
      * eapply Forall_impl; [apply IH|]. cbn beta.
        intros f Hf x Hx. specialize (Hf x Hx).
        now rewrite <- app_assoc in Hf.
    + eapply Forall_impl; [apply IH|]. cbn beta.
      intros f Hf x Hx. specialize (Hf x Hx).
      rewrite in_app_iff in *. simpl. tauto.
Qed.

(** The entries of [splitCommands s], one by one. *)
Lemma splitCommands_entry s e :
  In e (splitCommands s) ->
  e <> [] /\ trim e = e /\ ~ In LF e /\ NoStart e.
Proof.
  rewrite splitCommands_reference. unfold splitCommands_spec.
  intros [Hin Hne]%filter_In.
  apply in_map_iff in Hin as (f & <- & Hf).
  apply in_flat_map in Hf as (l & Hl & Hf).
  split; [|split; [apply trim_idempotent|split]].
  - unfold nonempty in Hne. now destruct (trim f).
  - pose proof (lines_no_LF s [] (fun H => H)) as HL.
    rewrite List.Forall_forall in HL. specialize (HL l Hl).
    pose proof (fragments_within l 0 []) as HF.
    rewrite List.Forall_forall in HF. specialize (HF f Hf).
    intros H%In_trim. exact (HL (HF _ H)).
  - apply NoStart_trim.
    pose proof (NoStart_fragments (length l) l [] (Nat.le_refl _)) as HN.
    rewrite List.Forall_forall in HN. apply HN; [|exact Hf].
    intros i op Hi. simpl in Hi. lia.
Qed.

Lemma lines_go_plain rest : forall cur,
  ~ In LF rest -> lines_go cur rest = [cur ++ rest].
Proof.
  induction rest as [|c rest IH]; intros cur Hr.
  - now rewrite app_nil_r.
  - cbn [lines_go]. destruct (N.eqb_spec c LF) as [->|Hc].
    + exfalso. apply Hr. now left.
    + rewrite IH by (simpl in Hr; tauto). now rewrite <- app_assoc.
Qed.

Lemma find_operator_none rest :
  (forall op, In op operators -> starts_with op rest = false) ->
  List.find (fun op => starts_with op rest) operators = None.
Proof.
  intros H. destruct (List.find _ operators) as [op|] eqn:E; [|reflexivity].
  apply find_some in E as [Hin Hsw]. now rewrite (H op Hin) in Hsw.
Qed.

Lemma fragments_go_plain rest : forall cur,
  NoStart rest -> fragments_go 0 cur rest = [cur ++ rest].
Proof.
  induction rest as [|c rest IH]; intros cur Hr.
  - now rewrite app_nil_r.
  - cbn [fragments_go]. rewrite find_operator_none by (exact (Hr 0)).
    rewrite IH; [now rewrite <- app_assoc|].
    intros i op Hop. exact (Hr (Datatypes.S i) op Hop).
Qed.

Lemma splitCommands_plain s :
  ~ In LF s -> NoStart s -> splitCommands s = List.filter nonempty [trim s].
Proof.
  intros HLF HN. rewrite splitCommands_reference. unfold splitCommands_spec.
  unfold lines. rewrite (lines_go_plain s [] HLF). cbn [app flat_map].
  unfold fragments. rewrite (fragments_go_plain s [] HN). reflexivity.
Qed.

Lemma splitCommands_of_entry s e :
  In e (splitCommands s) -> splitCommands e = [e].
Proof.
  intros (Hne & Htrim & HLF & HN)%splitCommands_entry.
  rewrite (splitCommands_plain e HLF HN), Htrim. unfold nonempty. simpl.
  now destruct e.
Qed.

Lemma NoStart_spec s :
  NoStart s <-> forall op a b, In op operators -> s <> a ++ op ++ b.
Proof.
  split.
  - intros H op a b Hop ->. specialize (H (length a) op Hop).
    rewrite drop_app_length in H. now rewrite starts_with_app in H.
  - intros H i op Hop.
    destruct (starts_with op (drop i s)) eqn:E; [|reflexivity].
    exfalso. apply (H op (take i s) (drop (length op) (drop i s)) Hop).
    rewrite <- (starts_with_drop _ _ E). symmetry. apply take_drop.
Qed.

End Entries.

(** X3. No entry of the result contains a newline, nor any of the
    operators [||], [&&] and [;]. *)
Theorem splitCommands_entries_separator_free (s : jsstring) :
  Forall (fun e : jsstring =>
            ~ In LF e
            /\ forall op a b, In op Reference.operators -> e <> a ++ op ++ b)
         (splitCommands s).
Proof.
  apply List.Forall_forall. intros e (_ & _ & HLF & HN)%splitCommands_entry.
  split; [exact HLF|]. now apply NoStart_spec.
Qed.

(** X4. Splitting again changes nothing: every entry of the result splits
    into itself alone. *)
Theorem splitCommands_idempotent (s : jsstring) :
  flat_map splitCommands (splitCommands s) = splitCommands s.
Proof.
  assert (H : forall l, (forall e, In e l -> splitCommands e = [e]) ->
                        flat_map splitCommands l = l).
  { induction l as [|e l IH]; intros Hl; simpl; [reflexivity|].
    rewrite (Hl e) by now left. simpl. f_equal. apply IH.
    intros e' He'. apply Hl. now right. }
  apply H. intros e. apply splitCommands_of_entry.
Qed.

(** X5. A command line with no newline and no operator in it is one
    command, its trimmed form; or none, if it is blank. *)
Theorem splitCommands_single (s : jsstring) :
  ~ In LF s ->
  (forall op a b, In op Reference.operators -> s <> a ++ op ++ b) ->
  splitCommands s = if length (trim s) =? 0 then [] else [trim s].
Proof.
  intros HLF HN%NoStart_spec. rewrite (splitCommands_plain s HLF HN).
  simpl. unfold Reference.nonempty. now destruct (length (trim s) =? 0).
Qed.

Lemma splitCommands_single_witness :
  splitCommands (lit " ls ") = [lit "ls"].
Proof.
  apply (splitCommands_single (lit " ls ")).
  - vm_compute. intuition discriminate.
  - apply NoStart_spec. intros i op [<-|[<-|[<-|[]]]];
      do 5 (destruct i as [|i]; [reflexivity|]); reflexivity.
Defined.

(** ** Command lines put together *)

Section Joining.

Import Reference.
Implicit Types s t a b cur rest line : jsstring.

Lemma lines_go_newline a : forall cur b,
  lines_go cur (a ++ [LF] ++ b) = lines_go cur a ++ lines b.
Proof.
  induction a as [|c a IH]; intros cur b.
  - reflexivity.
  - cbn [app lines_go]. destruct (c =? LF)%N; [|apply IH].
    cbn [app]. f_equal. apply IH.
Qed.

(** A line begun before [b] is read goes on with the first line of [b]. *)
Lemma lines_go_head b : forall pre,
  exists hd tl,
    lines_go pre b = (pre ++ hd) :: tl
    /\ forall cur, lines_go cur b = (cur ++ hd) :: tl.
Proof.
  induction b as [|c b IH]; intros pre.
  - exists [], []. simpl. rewrite app_nil_r. split; [reflexivity|].
    intros cur. now rewrite app_nil_r.
  - cbn [lines_go]. destruct (c =? LF)%N.
    + exists [], (lines_go [] b). rewrite app_nil_r. split; [reflexivity|].
      intros cur. now rewrite app_nil_r.
    + destruct (IH (pre ++ [c])) as (hd & tl & E & Hall).
      exists (c :: hd), tl. rewrite E, <- app_assoc. split; [reflexivity|].
      intros cur. rewrite Hall, <- app_assoc. reflexivity.
Qed.

Definition semicolon : N := 59%N.

Lemma starts_with_before_semicolon op c x y :
  In op operators ->
  starts_with op ((c :: x) ++ semicolon :: y) = starts_with op (c :: x).
Proof.
  intros [<-|[<-|[<-|[]]]]; destruct x as [|d x]; cbn;
    rewrite ?andb_true_r, ?andb_false_r; reflexivity.
Qed.

Lemma find_before_semicolon c x y :
  List.find (fun op => starts_with op ((c :: x) ++ semicolon :: y)) operators
  = List.find (fun op => starts_with op (c :: x)) operators.
Proof.
  unfold operators. cbn [List.find].
  rewrite !starts_with_before_semicolon by (simpl; auto). reflexivity.
Qed.

Lemma fragments_go_semicolon n : forall x cur y,
  length x <= n ->
  fragments_go 0 cur (x ++ semicolon :: y)
  = fragments_go 0 cur x ++ fragments y.
Proof.
  induction n as [|n IH]; intros [|c x] cur y Hn; simpl in Hn; try lia;
    try reflexivity.
  destruct (List.find (fun op => starts_with op (c :: x)) operators)
    as [op|] eqn:Hfind.
  - pose proof (find_before_semicolon c x y) as Hfind'.
    rewrite Hfind in Hfind'. cbn [app] in Hfind'.
    destruct (fragments_go_operator cur _ _ _ Hfind) as (Hin & E & ->).
    destruct (fragments_go_operator cur _ _ _ Hfind') as (_ & _ & E').
    cbn [app]. rewrite E'. f_equal.
    pose proof (operators_nonempty _ Hin) as Hpos.
    apply find_some in Hfind as [_ Hlen%starts_with_length].
    change (c :: x ++ semicolon :: y) with ((c :: x) ++ semicolon :: y).
    rewrite drop_app_le by exact Hlen.
    apply IH. rewrite length_drop. simpl. lia.
  - pose proof (find_before_semicolon c x y) as Hfind'.
    rewrite Hfind in Hfind'. cbn [app] in Hfind'.
    cbn [app fragments_go]. rewrite Hfind, Hfind'.
    apply IH. lia.
Qed.

Lemma pieces_semicolon a b : forall cur,
  flat_map fragments (lines_go cur (a ++ semicolon :: b))
  = flat_map fragments (lines_go cur a) ++ flat_map fragments (lines b).
Proof.
  induction a as [|c a IH]; intros cur.
  - cbn [app lines_go]. change (semicolon =? LF)%N with false. cbn iota.
    destruct (lines_go_head b []) as (hd & tl & E & Hall).
    unfold lines. rewrite Hall, E. cbn [flat_map app].
    unfold fragments at 1. rewrite <- app_assoc. cbn [app].
    rewrite (fragments_go_semicolon (length cur)) by lia.
    rewrite app_nil_r, <- app_assoc. reflexivity.
  - cbn [app lines_go]. destruct (c =? LF)%N; [|apply IH].
    cbn [flat_map]. rewrite IH, app_assoc. reflexivity.
Qed.

End Joining.

(** X6. A newline and a [;] separate whatever stands on either side of
    them, inside quotes as well: the commands of [a ++ "\n" ++ b] and of
    [a ++ ";" ++ b] are those of [a] followed by those of [b]. *)
Theorem splitCommands_app (a b : jsstring) :
  splitCommands (a ++ [LF] ++ b) = splitCommands a ++ splitCommands b
  /\ splitCommands (a ++ lit ";" ++ b) = splitCommands a ++ splitCommands b.
Proof.
  rewrite !splitCommands_reference. unfold Reference.splitCommands_spec.
  split.
  - unfold Reference.lines at 1. rewrite lines_go_newline.
    now rewrite flat_map_app, map_app, List.filter_app.
  - unfold Reference.lines at 1. change (lit ";" ++ b) with (semicolon :: b).
    rewrite pieces_semicolon. now rewrite map_app, List.filter_app.
Qed.

(** ** White space around a command line *)

Section Margins.

Import Reference.
Implicit Types s t a b cur rest line w : jsstring.

Lemma trim_cons_space c s : is_white_space c = true -> trim (c :: s) = trim s.
Proof. intros Hc. unfold trim. simpl. now rewrite Hc. Qed.

Lemma trim_start_app s t :
  trim_start s <> [] -> trim_start (s ++ t) = trim_start s ++ t.
Proof.
  induction s as [|c s IH]; simpl; [congruence|].
  destruct (is_white_space c); [exact IH|reflexivity].
Qed.

Lemma trim_snoc_space c s : is_white_space c = true -> trim (s ++ [c]) = trim s.
Proof.
  intros Hc. destruct (trim_start s) as [|a m] eqn:E.
  - pose proof (trim_start_nil_blank _ E) as Hs.
    rewrite (trim_blank s Hs). apply trim_blank.
    rewrite forallb_app, Hs. simpl. now rewrite Hc.
  - unfold trim, trim_end. rewrite trim_start_app by congruence.
    rewrite rev_app_distr. simpl. now rewrite Hc.
Qed.

Lemma space_not_operator c :
  is_white_space c = true ->
  (124 =? c)%N = false /\ (38 =? c)%N = false /\ (59 =? c)%N = false.
Proof.
  intros Hc. repeat split;
    match goal with
    | |- (?k =? c)%N = false =>
        destruct (N.eqb_spec k c) as [<-|_]; [discriminate Hc|reflexivity]
    end.
Qed.

Lemma find_space c rest :
  is_white_space c = true ->
  List.find (fun op => starts_with op (c :: rest)) operators = None.
Proof.
  intros Hc. apply find_operator_none. intros op Hop.
  now apply operator_not_space.
Qed.

Lemma find_before_space c' x c :
  is_white_space c = true ->
  List.find (fun op => starts_with op (c' :: x ++ [c])) operators
  = List.find (fun op => starts_with op (c' :: x)) operators.
Proof.
  intros (H1 & H2 & H3)%space_not_operator. unfold operators.
  change (lit "||") with [124%N; 124%N]. change (lit "&&") with [38%N; 38%N].
  change (lit ";") with [59%N].
  destruct x as [|d x]; cbn [List.find starts_with app];
    rewrite ?H1, ?H2, ?andb_true_r, ?andb_false_r; reflexivity.
Qed.

(** The commands of a line. *)
Definition line_commands line : list jsstring :=
  List.filter nonempty (map trim (fragments line)).

Lemma go_commands_cons c n : forall rest cur,
  is_white_space c = true -> length rest <= n ->
  List.filter nonempty (map trim (fragments_go 0 (c :: cur) rest))
  = List.filter nonempty (map trim (fragments_go 0 cur rest)).
Proof.
  intros rest cur Hc. revert rest cur.
  induction n as [|n IH]; intros [|c' rest] cur Hn; simpl in Hn; try lia;
    try (simpl; now rewrite trim_cons_space).
  destruct (List.find (fun op => starts_with op (c' :: rest)) operators)
    as [op|] eqn:Hfind.
  - destruct (fragments_go_operator (c :: cur) _ _ _ Hfind) as (_ & _ & ->).
    destruct (fragments_go_operator cur _ _ _ Hfind) as (_ & _ & ->).
    cbn [map]. now rewrite trim_cons_space.
  - cbn [fragments_go]. rewrite Hfind. apply (IH rest (cur ++ [c'])). lia.
Qed.

Lemma go_commands_snoc c n : forall rest cur,
  is_white_space c = true -> length rest <= n ->
  List.filter nonempty (map trim (fragments_go 0 cur (rest ++ [c])))
  = List.filter nonempty (map trim (fragments_go 0 cur rest)).
Proof.
  intros rest cur Hc. revert rest cur.
  induction n as [|n IH]; intros [|c' rest] cur Hn; simpl in Hn; try lia;
    try (cbn [app fragments_go]; rewrite (find_space c [] Hc); simpl;
         now rewrite trim_snoc_space).
  pose proof (find_before_space c' rest c Hc) as Hfind'.
  destruct (List.find (fun op => starts_with op (c' :: rest)) operators)
    as [op|] eqn:Hfind.
  - destruct (fragments_go_operator cur _ _ _ Hfind) as (Hin & _ & ->).
    cbn [app]. destruct (fragments_go_operator cur _ _ _ Hfind') as (_ & _ & ->).
    pose proof (operators_nonempty _ Hin) as Hpos.
    apply find_some in Hfind as [_ Hlen%starts_with_length].
    change (c' :: rest ++ [c]) with ((c' :: rest) ++ [c]).
    rewrite drop_app_le by exact Hlen. cbn [map].
    change (trim cur :: ?l) with ([trim cur] ++ l). rewrite !List.filter_app.
    f_equal. apply IH. rewrite length_drop. simpl. lia.
  - cbn [app fragments_go]. rewrite Hfind, Hfind'. apply IH. lia.
Qed.

Lemma line_commands_cons c line :
  is_white_space c = true -> line_commands (c :: line) = line_commands line.
Proof.
  intros Hc. unfold line_commands, fragments. cbn [fragments_go].
  rewrite (find_space c line Hc).
  now apply (go_commands_cons c (length line)).
Qed.

Lemma line_commands_snoc c line :
  is_white_space c = true -> line_commands (line ++ [c]) = line_commands line.
Proof.
  intros Hc. now apply (go_commands_snoc c (length line)).
Qed.

Lemma lines_commands_cons c rest : forall cur,
  is_white_space c = true ->
  flat_map line_commands (lines_go (c :: cur) rest)
  = flat_map line_commands (lines_go cur rest).
Proof.
  induction rest as [|c' rest IH]; intros cur Hc.
  - simpl. now rewrite line_commands_cons.
  - cbn [lines_go]. destruct (c' =? LF)%N.
    + cbn [flat_map]. now rewrite line_commands_cons.
    + now apply (IH (cur ++ [c'])).
Qed.

Lemma lines_commands_snoc c rest : forall cur,
  is_white_space c = true -> (c =? LF)%N = false ->
  flat_map line_commands (lines_go cur (rest ++ [c]))
  = flat_map line_commands (lines_go cur rest).
Proof.
  induction rest as [|c' rest IH]; intros cur Hc HLF.
  - cbn [app lines_go]. rewrite HLF. simpl. now rewrite line_commands_snoc.
  - cbn [app lines_go]. destruct (c' =? LF)%N.
    + cbn [flat_map]. now rewrite IH.
    + now apply IH.
Qed.

Lemma splitCommands_lines s :
  splitCommands s = flat_map line_commands (lines s).
Proof.
  rewrite splitCommands_reference. unfold splitCommands_spec.
  apply filter_map_flat_map.
Qed.

Lemma splitCommands_cons_space c s :
  is_white_space c = true -> splitCommands (c :: s) = splitCommands s.
Proof.
  intros Hc. rewrite !splitCommands_lines. unfold lines. cbn [lines_go].
  destruct (c =? LF)%N; [reflexivity|].
  now apply lines_commands_cons.
Qed.

Lemma splitCommands_snoc_space c s :
  is_white_space c = true -> splitCommands (s ++ [c]) = splitCommands s.
Proof.
  intros Hc. rewrite !splitCommands_lines. unfold lines.
  destruct (N.eqb_spec c LF) as [->|Hne].
  - change (s ++ [LF]) with (s ++ [LF] ++ []).
    rewrite (lines_go_newline s [] []), flat_map_app. apply app_nil_r.
  - apply lines_commands_snoc; [exact Hc|]. now apply N.eqb_neq.
Qed.

Lemma splitCommands_margins w1 s w2 :
  all_white_space w1 = true -> all_white_space w2 = true ->
  splitCommands (w1 ++ s ++ w2) = splitCommands s.
Proof.
  intros H1 H2. induction w1 as [|c w1 IH]; cbn [app].
  - clear H1. induction w2 as [|c w2 IH] using rev_ind.
    + now rewrite app_nil_r.
    + unfold all_white_space in H2. rewrite forallb_app in H2.
      apply andb_true_iff in H2 as [H2 Hc]. simpl in Hc.
      rewrite andb_true_r in Hc.
      rewrite app_assoc, splitCommands_snoc_space by exact Hc. now apply IH.
  - simpl in H1. apply andb_true_iff in H1 as [Hc H1].
    rewrite splitCommands_cons_space by exact Hc. now apply IH.
Qed.

End Margins.

(** X7. White space around the command line does not count:
    [splitCommands] gives the same for [trim s] as for [s], and for [s]
    with white space added at either end. *)
Theorem splitCommands_trim (s : jsstring) :
  splitCommands (trim s) = splitCommands s
  /\ forall w1 w2 : jsstring,
       all_white_space w1 = true -> all_white_space w2 = true ->
       splitCommands (w1 ++ s ++ w2) = splitCommands s.
Proof.
  split; [|intros w1 w2; apply splitCommands_margins].
  destruct (trim_infix s) as (w1 & w2 & E & H1 & H2).
  rewrite E at 2. symmetry. now apply splitCommands_margins.
Qed.

Lemma splitCommands_trim_witness :
  splitCommands ([LF; 32%N] ++ lit "ls;pwd" ++ [9%N; LF])
  = [lit "ls"; lit "pwd"].
Proof.
  rewrite (proj2 (splitCommands_trim (lit "ls;pwd")) [LF; 32%N] [9%N; LF]);
    reflexivity.
Defined.

(** ** The execution processor, further *)

Lemma processTerminalExecution_request (commandLine : jsstring)
    (exitCode : option Z) (workspaceContext : option jsstring)
    (captureSuccessOnly : bool) (r : capture_request) :
  processTerminalExecution commandLine exitCode workspaceContext
    captureSuccessOnly = Some r ->
  r = {| commands := splitCommands commandLine;
         options := {| context := workspaceContext;
                       status := derived_status exitCode |} |}
  /\ all_white_space commandLine = false
  /\ (captureSuccessOnly = true -> exitCode = Some 0%Z).
Proof.
  unfold processTerminalExecution.
  destruct (falsy commandLine || (length (trim commandLine) =? 0)) eqn:Hb;
    [discriminate|].
  apply orb_false_iff in Hb as [_ Hb].
  assert (Hws : all_white_space commandLine = false).
  { destruct (all_white_space commandLine) eqn:E; [|reflexivity].
    apply trim_empty_iff in E. rewrite E in Hb. discriminate Hb. }
  rewrite <- derived_status_code.
  destruct captureSuccessOnly, exitCode as [[| |]|]; cbn;
    try discriminate; intros [= <-]; repeat split; auto; discriminate.
Qed.

Lemma trim_margins (w1 s w2 : jsstring) :
  all_white_space w1 = true -> all_white_space w2 = true ->
  trim (w1 ++ s ++ w2) = trim s.
Proof.
  intros H1 H2. induction w1 as [|c w1 IH]; cbn [app].
  - clear H1. induction w2 as [|c w2 IH] using rev_ind.
    + now rewrite app_nil_r.
    + unfold all_white_space in H2. rewrite forallb_app in H2.
      apply andb_true_iff in H2 as [H2 Hc]. simpl in Hc.
      rewrite andb_true_r in Hc.
      rewrite app_assoc, trim_snoc_space by exact Hc. now apply IH.
  - simpl in H1. apply andb_true_iff in H1 as [Hc H1].
    rewrite trim_cons_space by exact Hc. now apply IH.
Qed.

(** X8. The success-only flag is a filter and nothing more: with the flag
    set a request is returned exactly when the same request is returned
    without the flag and its status is [success]. *)
Theorem success_only_is_a_filter (commandLine : jsstring)
    (exitCode : option Z) (workspaceContext : option jsstring)
    (r : capture_request) :
  processTerminalExecution commandLine exitCode workspaceContext true = Some r
  <-> processTerminalExecution commandLine exitCode workspaceContext false
      = Some r
      /\ status (options r) = lit "success".
Proof.
  unfold processTerminalExecution.
  destruct (falsy commandLine || (length (trim commandLine) =? 0)).
  { split; [discriminate|intros [H _]; discriminate H]. }
  destruct exitCode as [[| |]|]; cbn; split;
    try discriminate; try (intros [[= <-] H]; discriminate H);
    try (intros [= <-]; split; reflexivity); intros [H _]; exact H.
Qed.

Lemma success_only_is_a_filter_witness :
  processTerminalExecution (lit "ls; pwd") (Some 0%Z) None true
  = Some {| commands := [lit "ls"; lit "pwd"];
            options := {| context := None; status := lit "success" |} |}.
Proof.
  apply (proj2 (success_only_is_a_filter (lit "ls; pwd") (Some 0%Z) None _)).
  split; reflexivity.
Defined.

(** X9. A returned request carries no command exactly when the command
    line is made of operators and white space only (and it is never all
    white space). *)
Theorem processTerminalExecution_no_command (commandLine : jsstring)
    (exitCode : option Z) (workspaceContext : option jsstring)
    (captureSuccessOnly : bool) (r : capture_request) :
  processTerminalExecution commandLine exitCode workspaceContext
    captureSuccessOnly = Some r ->
  (commands r = [] <-> separators_only commandLine = true)
  /\ all_white_space commandLine = false.
Proof.
  intros (-> & Hws & _)%processTerminalExecution_request.
  split; [|exact Hws]. cbn [commands]. split.
  - intros E. pose proof (splitCommands_Woven commandLine) as HW.
    rewrite E in HW. inversion HW; subst. now apply separators_only_complete.
  - intros H. apply splitCommands_SeparatorsOnly.
    now apply separators_only_spec.
Qed.

Lemma processTerminalExecution_no_command_witness :
  (commands {| commands := [];
               options := {| context := None; status := lit "failed" |} |}
   = [] <-> separators_only (lit " ;&& ") = true)
  /\ all_white_space (lit " ;&& ") = false.
Proof.
  apply (processTerminalExecution_no_command (lit " ;&& ") (Some 2%Z) None
           false).
  reflexivity.
Defined.

(** X10. White space before and after the command line changes nothing to
    what [processTerminalExecution] returns. *)
Theorem processTerminalExecution_margins (commandLine w1 w2 : jsstring)
    (exitCode : option Z) (workspaceContext : option jsstring)
    (captureSuccessOnly : bool) :
  all_white_space w1 = true -> all_white_space w2 = true ->
  processTerminalExecution (w1 ++ commandLine ++ w2) exitCode
    workspaceContext captureSuccessOnly
  = processTerminalExecution commandLine exitCode workspaceContext
      captureSuccessOnly.
Proof.
  intros H1 H2. unfold processTerminalExecution.
  rewrite (trim_margins w1 commandLine w2 H1 H2).
  rewrite (splitCommands_margins w1 commandLine w2 H1 H2).
  replace (falsy (w1 ++ commandLine ++ w2) || (length (trim commandLine) =? 0))
    with (falsy commandLine || (length (trim commandLine) =? 0));
    [reflexivity|].
  destruct (length (trim commandLine) =? 0) eqn:E;
    [now rewrite !orb_true_r|].
  rewrite !orb_false_r.
  destruct commandLine as [|c l]; [discriminate E|].
  now destruct w1.
Qed.

Lemma processTerminalExecution_margins_witness :
  processTerminalExecution ([32%N] ++ lit "ls" ++ [LF]) (Some 0%Z) None true
  = Some {| commands := [lit "ls"];
            options := {| context := None; status := lit "success" |} |}.
Proof.
  rewrite (processTerminalExecution_margins (lit "ls") [32%N] [LF]);
    reflexivity.
Defined.

(** ** The queue as its callers and the client see it *)

Section Serving.

Context `{TimerPolicy}.

Lemma submits_map_Effect es : submits (map Effect es) = [].
Proof. induction es as [|e es IH]; [reflexivity|exact IH]. Qed.

Lemma submits_submissions result : submits (submissions result) = submissions result.
Proof.
  unfold submissions. induction (commands result) as [|c cs IH];
    [reflexivity|]. cbn. f_equal. exact IH.
Qed.

Lemma submits_op_trace op : submits (op_trace op) = op_submissions op.
Proof.
  unfold op_trace, submits. cbn [List.filter is_submit].
  rewrite List.filter_app. cbn [List.filter is_submit]. rewrite app_nil_r.
  destruct op as [b|es|[client|] result]; cbn [op_events op_submissions].
  - apply submits_map_Effect.
  - apply submits_map_Effect.
  - apply submits_submissions.
  - reflexivity.
Qed.

Lemma submits_ops ops :
  submits (flat_map op_trace ops) = flat_map op_submissions ops.
Proof.
  induction ops as [|op ops IH]; [reflexivity|].
  cbn [flat_map]. unfold submits in *.
  rewrite List.filter_app, IH. f_equal. apply submits_op_trace.
Qed.

Lemma Inv_enqueue_pending ops q st A op :
  Inv ops q st A ->
  heap (enqueue q (operation_of op) st).2
    !! queue (enqueue q (operation_of op) st).1 = Some (Pending []).
Proof.
  intros HI. apply (Inv_enqueue _ _ _ _ op) in HI.
  destruct HI as [_ _ Hh _ Hq _]. rewrite Hq.
  apply (heap_is_lookup _ _ _ _ Hh).
  destruct A as [c|ph p0 c0 pend]; cbn [aenqueue adesc atail];
    apply elem_of_app; right; apply chain_tail_in.
Qed.

Lemma enqueue_clock q op st :
  timers (enqueue q op st).2 = timers st /\ now (enqueue q op st).2 = now st.
Proof.
  destruct st as [h r m ts n tr]. unfold enqueue, promise_then, alloc.
  cbn [heap remaining micro timers now trace].
  unfold perform_then.
  repeat match goal with
         | |- context [match ?x with _ => _ end] => destruct x
         end; split; reflexivity.
Qed.

End Serving.

(** X11. [enqueue] returns at once: whatever the state of the queue, idle
    or busy, the call runs no part of any operation, sets no timer and
    lets no time pass; the new tail promise is pending. *)
Theorem enqueue_returns_at_once `{TimerPolicy} (script : list action)
    (op : queued_operation) :
  let q := (play script).1 in
  let st := (play script).2 in
  let q' := (enqueue q (operation_of op) st).1 in
  let st' := (enqueue q (operation_of op) st).2 in
  trace st' = trace st
  /\ timers st' = timers st
  /\ now st' = now st
  /\ heap st' !! queue q' = Some (Pending []).
Proof.
  cbn zeta. destruct (Inv_play script) as [A HI].
  split; [apply trace_enqueue|].
  destruct (enqueue_clock (play script).1 (operation_of op) (play script).2)
    as [Ht Hn].
  split; [exact Ht|]. split; [exact Hn|].
  exact (Inv_enqueue_pending _ _ _ _ op HI).
Qed.

(** X12. From a terminal event to the client: the request that
    [processTerminalExecution] returns, handed to [queueCapture] with a
    client, is served after everything enqueued before; the calls are one
    per command of [splitCommands commandLine], in order, each with the
    empty description and the options [{ context, status }]; and the
    operation ends fulfilled whatever the client answers. *)
Theorem processed_execution_is_captured `{TimerPolicy} (script : list action)
    (client : MemoryBoxClient) (commandLine : jsstring) (exitCode : option Z)
    (workspaceContext : option jsstring) (captureSuccessOnly : bool)
    (r : capture_request) :
  processTerminalExecution commandLine exitCode workspaceContext
    captureSuccessOnly = Some r ->
  let q := (play script).1 in
  let st := (play script).2 in
  let st' := (queueCapture q (Some client) r st).2 in
  exists n,
    quiescent (run n st')
    /\ trace (run n st')
       = flat_map op_trace (enqueued script)
         ++ OpStart
            :: map (fun cmd =>
                      Submit cmd []
                        {| context := workspaceContext;
                           status := derived_status exitCode |})
                   (splitCommands commandLine)
            ++ [OpEnd Fulfilled].
Proof.
  intros (-> & _)%processTerminalExecution_request. cbn zeta.
  unfold queueCapture.
  destruct (Inv_play script) as [A HI].
  set (r := {| commands := splitCommands commandLine; options := _ |}).
  pose proof (Inv_enqueue _ _ _ _ (Capture (Some client) r) HI) as HI'.
  cbn [operation_of] in HI'.
  destruct (Inv_drain _ _ _ _ HI') as (n & c & Hn).
  exists n. apply Inv_idle in Hn as (_ & Hq & Htr & _).
  split; [exact Hq|]. rewrite Htr, flat_map_app. cbn [flat_map].
  rewrite app_nil_r. reflexivity.
Qed.

Lemma processed_execution_is_captured_witness :
  exists n,
    trace (run n (queueCapture (play []).1 (Some rejecting_cmd2)
                    {| commands := [lit "cmd1"; lit "cmd2"];
                       options := {| context := None;
                                     status := lit "failed" |} |}
                    (play []).2).2)
    = [OpStart;
       Submit (lit "cmd1") [] {| context := None; status := lit "failed" |};
       Submit (lit "cmd2") [] {| context := None; status := lit "failed" |};
       OpEnd Fulfilled].
Proof.
  destruct (processed_execution_is_captured [] rejecting_cmd2
              (lit "cmd1 && cmd2") (Some 1%Z) None false _ eq_refl)
    as (n & _ & Hn).
  exists n. exact Hn.
Defined.

(** X13. The client sees the captures in enqueue order: at any moment the
    calls made so far are an initial part of the calls of the requests
    queued with a client, request after request in enqueue order and
    command after command inside one; at rest all of them have been
    made. *)
Theorem captures_reach_the_client_in_order `{TimerPolicy}
    (script : list action) :
  let st := (play script).2 in
  (forall m,
     submits (trace (run m st))
     `prefix_of` flat_map op_submissions (enqueued script))
  /\ exists n,
       quiescent (run n st)
       /\ submits (trace (run n st))
          = flat_map op_submissions (enqueued script).
Proof.
  cbn zeta. destruct (Inv_play script) as [A HI]. split.
  - intros m. destruct (Inv_run _ _ _ _ m HI) as [A' Hm].
    apply Inv_prefix in Hm. apply (filter_prefix is_submit) in Hm.
    fold (submits (flat_map op_trace (enqueued script))) in Hm.
    now rewrite submits_ops in Hm.
  - destruct (Inv_drain _ _ _ _ HI) as (n & c & Hn).
    exists n. apply Inv_idle in Hn as (_ & Hq & Htr & _).
    split; [exact Hq|]. now rewrite Htr, submits_ops.
Qed.
